(** * QS/C++ port to the POSIX API: a verification of [qs_port.cpp]

    The port drains the tracer's transmit ring buffer over a non-blocking
    TCP socket ([QS::onFlush], [QS_output]), polls the socket for input
    ([QS_rx_input]), opens the connection ([QS::onStartup]) and supplies the
    time stamp ([QS::onGetTime]).

    The functions are embedded as Rocq functions.  Calls to the operating
    system are answered by an explicit environment (what [send] will accept,
    what [socket] and [connect] return) and every such call is recorded as an
    [Event], so that statements about the order of sends, sleeps and fetches
    are statements about the recorded trace. *)

From Stdlib Require Import ZArith Lia List Bool Ascii String.
From stdpp Require Import base option list.
Import ListNotations.
Open Scope Z_scope.

(** ** Machine integers *)

Module CInt.

(** Conversion to [uint16_t]. *)
Definition u16 (x : Z) : Z := x mod 2 ^ 16.

(** A 64-bit [long] (the type of [tv_sec] and [tv_nsec] on LP64 hosts) in
    two's complement. *)
Definition s64 (x : Z) : Z := (x + 2 ^ 63) mod 2 ^ 64 - 2 ^ 63.

End CInt.
Import CInt.

(** ** Constants of the port *)

Definition QS_TX_SIZE : Z := 8 * 1024.
Definition QS_RX_SIZE : Z := 2 * 1024.
Definition QS_TX_CHUNK : Z := QS_TX_SIZE.
Definition QS_TIMEOUT_MS : Z := 10.

Definition INVALID_SOCKET : Z := -1.
Definition SOCKET_ERROR : Z := -1.

(** [<errno.h>] of the Linux host; POSIX allows the two to coincide and on
    Linux they do. *)
Definition EAGAIN : Z := 11.
Definition EWOULDBLOCK : Z := 11.

(** ** The clock: [QS::onGetTime] *)

Record timespec := mkTimespec { tv_sec : Z; tv_nsec : Z }.

(** [c_timeout = { 0, QS_TIMEOUT_MS*1000000L }] *)
Definition c_timeout : timespec :=
  {| tv_sec := 0; tv_nsec := QS_TIMEOUT_MS * 1000000 |}.

(** Modelled from the spec: the type [QSTimeCtr] is declared in the tracer's
    own header, which the port only includes.  The spec calls it an unsigned
    counter whose wrap-around is "governed by the integer width chosen"; the
    width is therefore a parameter, ranging over the exact-width unsigned
    types. *)
Inductive TimeCtrWidth := Ctr8 | Ctr16 | Ctr32 | Ctr64.

Definition ctr_bits (w : TimeCtrWidth) : Z :=
  match w with Ctr8 => 8 | Ctr16 => 16 | Ctr32 => 32 | Ctr64 => 64 end.

(** The cast [(QSTimeCtr)x]. *)
Definition to_QSTimeCtr (w : TimeCtrWidth) (x : Z) : Z := x mod 2 ^ ctr_bits w.

(** [tspec] is what [clock_gettime(CLOCK_MONOTONIC_RAW, &tspec)] stored.
    [/] on C integers truncates, hence [Z.quot]. *)
Definition onGetTime (w : TimeCtrWidth) (tspec : timespec) : Z :=
  to_QSTimeCtr w (s64 (s64 (tv_sec tspec * 10000000) + tv_nsec tspec ÷ 100)).

(** The value as the spec words it: the reading as a count of units of
    100 ns. *)
Definition spec_ticks_100ns (t : timespec) : Z :=
  tv_sec t * 10000000 + tv_nsec t / 100.

(** A reading as POSIX delivers it, and the order of readings in time. *)
Definition timespec_valid (t : timespec) : Prop :=
  0 <= tv_nsec t < 1000000000.

Definition timespec_le (a b : timespec) : Prop :=
  tv_sec a < tv_sec b \/ (tv_sec a = tv_sec b /\ tv_nsec a <= tv_nsec b).

(** ** Endpoint parsing in [QS::onStartup] *)

Definition NUL : ascii := Ascii.zero.
Definition COLON : ascii := ":"%char.

Definition cstr (s : string) : list ascii := list_ascii_of_string s.

(** [*src] for a C string held as the list of its characters: past the last
    character sits the terminator. *)
Definition deref (src : list ascii) : ascii :=
  match src with
  | [] => NUL
  | c :: _ => c
  end.

(** The characters of the C string that starts at the beginning of a
    character array. *)
Fixpoint c_string (buf : list ascii) : list ascii :=
  match buf with
  | [] => []
  | c :: buf' => if Ascii.eqb c NUL then [] else c :: c_string buf'
  end.

(** [sizeof(hostName)] for [char hostName[128]]. *)
Definition sizeof_hostName : nat := 128.

(** A store through [dst] into the array; a store outside the array has no
    defined result. *)
Definition store (buf : list ascii) (i : nat) (c : ascii) : option (list ascii) :=
  if (i <? length buf)%nat then Some (<[i := c]> buf) else None.

(** The copy loop
[[
    while ( *src is neither NUL nor a colon
            and dst < &hostName[sizeof(hostName) - 1] )
    {   *dst++ = *src++;   }
]]
    [dst] is the index into [hostName].  The result is the final [src],
    the final [dst] and the array. *)
Fixpoint onStartup_copy_host (src : list ascii) (dst : nat) (hostName : list ascii)
  : option (list ascii * nat * list ascii) :=
  match src with
  | [] => Some (src, dst, hostName)
  | c :: src' =>
      if negb (Ascii.eqb c NUL) && negb (Ascii.eqb c COLON)
         && (dst <? sizeof_hostName - 1)%nat
      then match store hostName dst c with
           | Some hostName' => onStartup_copy_host src' (S dst) hostName'
           | None => None
           end
      else Some (src, dst, hostName)
  end.

(** Lines 97-113 of the port: [arg] is [None] for [nullptr]; [hostName] is
    the array as found on the stack.  The result is the array after the
    copy and the string [serviceName] points to. *)
Definition onStartup_endpoint (arg : option (list ascii)) (hostName : list ascii)
  : option (list ascii * list ascii) :=
  let serviceName := cstr "6601" in
  let src := match arg with
             | Some a => a
             | None => cstr "localhost"
             end in
  match onStartup_copy_host src 0 hostName with
  | None => None
  | Some (src, dst, hostName) =>
      match store hostName dst NUL with
      | None => None
      | Some hostName =>
          let serviceName :=
            if Ascii.eqb (deref src) COLON then tl src else serviceName in
          Some (hostName, serviceName)
      end
  end.

(** The two strings [getaddrinfo] is then called with. *)
Definition endpoint_of (arg : option (list ascii)) (hostName : list ascii)
  : option (string * string) :=
  match onStartup_endpoint arg hostName with
  | None => None
  | Some (hostName, serviceName) =>
      Some (string_of_list_ascii (c_string hostName),
            string_of_list_ascii (c_string serviceName))
  end.

(** The host portion of a configuration string: everything before the first
    [':'] or the end of the string. *)
Fixpoint host_portion (src : list ascii) : list ascii :=
  match src with
  | [] => []
  | c :: src' =>
      if Ascii.eqb c NUL || Ascii.eqb c COLON then [] else c :: host_portion src'
  end.

(** ** Events

    Every call that leaves the port is recorded. *)

Inductive Diag :=
| DiagInvalidSocket                 (* "<TARGET> ERROR   invalid TCP socket" *)
| DiagSendError (errno : Z).        (* "... sending data over TCP,errno=%d" *)

Inductive Event :=
| ECritE                                      (* QS_CRIT_E_() *)
| ECritX                                      (* QS_CRIT_X_() *)
| EGetBlock (req : Z) (blk : option (Z * Z))  (* getBlock(&nBytes) *)
| ESend (sock data nBytes nSent errno : Z)    (* send(l_sock, data, nBytes, 0) *)
| ESleep (t : timespec)                       (* nanosleep(&c_timeout, NULL) *)
| EStderr (d : Diag)                          (* FPRINTF_S(stderr, ...) *)
| ERecv (sock cap status : Z)                 (* recv(l_sock, buf, end, 0) *)
| ERxParse                                    (* QS::rxParse() *)
| ESocket (addr fd : Z)                       (* socket(...) *)
| EConnect (fd addr status : Z)               (* connect(...) *)
| EClose (fd : Z)                             (* close(...) *)
| EExit (code : Z).                           (* exit(...) *)

(** ** Connecting: the candidate loop of [QS::onStartup] *)

(** One entry of the list [getaddrinfo] returned, together with what the
    host answers for it: the value of [socket(...)] and of [connect(...)]. *)
Record Candidate := mkCandidate {
  cand_addr : Z;
  cand_socket : Z;
  cand_connect : Z
}.

(** Lines 129-140:
[[
    for (rp = result; rp != NULL; rp = rp->ai_next) {
        l_sock = socket(...);
        if (l_sock != INVALID_SOCKET) {
            if (connect(...) == SOCKET_ERROR) {
                close(l_sock);
                l_sock = INVALID_SOCKET;
            }
            break;
        }
    }
]]
    The result is the final [l_sock] and the calls made. *)
Fixpoint onStartup_connect (rp : list Candidate) (l_sock : Z) : Z * list Event :=
  match rp with
  | [] => (l_sock, [])
  | c :: ai_next =>
      let l_sock := cand_socket c in
      if negb (l_sock =? INVALID_SOCKET) then
        if cand_connect c =? SOCKET_ERROR then
          (INVALID_SOCKET,
           [ESocket (cand_addr c) l_sock;
            EConnect l_sock (cand_addr c) (cand_connect c);
            EClose l_sock])
        else
          (l_sock,
           [ESocket (cand_addr c) l_sock;
            EConnect l_sock (cand_addr c) (cand_connect c)])
      else
        let '(s, evs) := onStartup_connect ai_next l_sock in
        (s, ESocket (cand_addr c) l_sock :: evs)
  end.

(** The candidates on which [connect] was called. *)
Definition connect_attempts (evs : list Event) : list Z :=
  flat_map (fun e => match e with EConnect _ a _ => [a] | _ => [] end) evs.

(** The loop as the spec words it: go through the candidates in order,
    pass over one whose [socket] or [connect] fails, stop at the first that
    connects.  The result is the connected descriptor. *)
Fixpoint spec_first_connectable (rp : list Candidate) : Z :=
  match rp with
  | [] => INVALID_SOCKET
  | c :: ai_next =>
      if negb (cand_socket c =? INVALID_SOCKET)
         && negb (cand_connect c =? SOCKET_ERROR)
      then cand_socket c
      else spec_first_connectable ai_next
  end.

(** ** The transmit path: [QS::onFlush] and [QS_output] *)

(** The answer of the socket to one call of [send] on a valid descriptor:
    either its buffer has room for some number of bytes, and it takes as
    many of the offered ones as fit, or the call fails and sets [errno]. *)
Inductive SendResp :=
| Accepts (room : nat)
| Fails (errno : Z).

(** [send(l_sock, data, nBytes, 0)]: the returned count and [errno]. *)
Definition send (r : SendResp) (nBytes : Z) : Z * Z :=
  match r with
  | Accepts room => (Z.min (Z.of_nat room) nBytes, 0)
  | Fails errno => (SOCKET_ERROR, errno)
  end.

(** The answer of the socket to one call of [recv] on a valid descriptor. *)
Inductive RecvResp :=
| Received (bytes : list Byte.byte)
| RecvFails (errno : Z).

(** [recv(l_sock, buf, end, 0)]: the returned status and the bytes stored at
    the start of [buf].  On a descriptor that is not open the call fails
    ([EBADF]) whatever the peer has sent. *)
Definition recv (sock : Z) (r : RecvResp) (cap : Z) : Z * list Byte.byte :=
  if sock =? INVALID_SOCKET then (-1, [])
  else match r with
       | Received bytes =>
           let got := take (Z.to_nat cap) bytes in
           (Z.of_nat (length got), got)
       | RecvFails _ => (-1, [])
       end.

(** The receive window [QS::rxPriv_] as far as the port touches it. *)
Record RxPriv := mkRxPriv {
  rx_buf : list Byte.byte;
  rx_end : Z;
  rx_head : Z;
  rx_tail : Z
}.

(** How a call ended.  [StillSending] is not a return: the recorded answers
    of the socket ran out while the send loop was still retrying. *)
Inductive Exit :=
| Finished        (* ran to the end of the function *)
| SendFailed      (* [return] after a send error other than would-block *)
| NoSocket        (* [return] after finding [l_sock == INVALID_SOCKET] *)
| StillSending.

Section Pump.

(** The transmit ring buffer belongs to the tracer; the port sees it only
    through [getBlock(&nBytes)], which is handed the largest acceptable
    length and returns either no block or the address and the length of a
    block, and leaves the buffer in a new state. *)
Context {RB : Type}.
Variable getBlock : RB -> Z -> option (Z * Z) * RB.

(** The file-scope state ([l_sock]) and the tracer's buffers. *)
Record State := mkState {
  l_sock : Z;
  priv_ : RB;
  rxPriv_ : RxPriv
}.

Definition set_priv (st : State) (rb : RB) : State :=
  {| l_sock := l_sock st; priv_ := rb; rxPriv_ := rxPriv_ st |}.

(** The record of one call: the calls it made in order, how it ended, the
    state it left and the answers of the socket it did not use. *)
Record Run := mkRun {
  trace : list Event;
  exit : Exit;
  final : State;
  unread : list SendResp
}.

Definition stop (x : Exit) (st : State) (script : list SendResp) : Run :=
  {| trace := []; exit := x; final := st; unread := script |}.

Definition emit (e : Event) (r : Run) : Run :=
  {| trace := e :: trace r; exit := exit r; final := final r;
     unread := unread r |}.

Local Notation "e ::> r" := (emit e r) (at level 60, right associativity).

(** The [for (;;)] loop of [QS::onFlush] together with the rest of the
    enclosing [while]: on [break] the function sets
    [nBytes = QS_TX_CHUNK], enters the critical section and evaluates the
    condition of the [while] again.  [script] holds the answers of the
    socket to the calls of [send] still to come. *)
Fixpoint onFlush_send (st : State) (script : list SendResp)
    (data nBytes : Z) : Run :=
  match script with
  | [] => stop StillSending st []
  | r :: script' =>
      let '(nSent, errno) := send r nBytes in
      ESend (l_sock st) data nBytes nSent errno ::>
      if nSent =? SOCKET_ERROR then
        if (errno =? EWOULDBLOCK) || (errno =? EAGAIN) then
          ESleep c_timeout ::> onFlush_send st script' data nBytes
        else
          EStderr (DiagSendError errno) ::> stop SendFailed st script'
      else if nSent <? nBytes then
        ESleep c_timeout ::>
        onFlush_send st script' (data + nSent) (u16 (nBytes - u16 nSent))
      else
        ECritE ::>
        match getBlock (priv_ st) (u16 QS_TX_CHUNK) with
        | (Some (data', nBytes'), rb) =>
            EGetBlock (u16 QS_TX_CHUNK) (Some (data', u16 nBytes')) ::>
            ECritX ::>
            onFlush_send (set_priv st rb) script' data' (u16 nBytes')
        | (None, rb) =>
            EGetBlock (u16 QS_TX_CHUNK) None ::>
            ECritX ::> stop Finished (set_priv st rb) script'
        end
  end.

(** The head of the [while] in [QS::onFlush], entered with
    [nBytes = QS_TX_CHUNK]: inside the critical section ask for the next
    block; send it if there is one, leave the loop if there is none. *)
Definition onFlush_while (st : State) (script : list SendResp) : Run :=
  ECritE ::>
  match getBlock (priv_ st) (u16 QS_TX_CHUNK) with
  | (Some (data, nBytes), rb) =>
      EGetBlock (u16 QS_TX_CHUNK) (Some (data, u16 nBytes)) ::>
      ECritX ::>
      onFlush_send (set_priv st rb) script data (u16 nBytes)
  | (None, rb) =>
      EGetBlock (u16 QS_TX_CHUNK) None ::>
      ECritX ::> stop Finished (set_priv st rb) script
  end.

(** [QS::onFlush] *)
Definition onFlush (st : State) (script : list SendResp) : Run :=
  if l_sock st =? INVALID_SOCKET then
    EStderr DiagInvalidSocket ::> stop NoSocket st script
  else
    onFlush_while st script.

(** The [for (;;)] loop of [QS_output]. *)
Fixpoint QS_output_send (st : State) (script : list SendResp)
    (data nBytes : Z) : Run :=
  match script with
  | [] => stop StillSending st []
  | r :: script' =>
      let '(nSent, errno) := send r nBytes in
      ESend (l_sock st) data nBytes nSent errno ::>
      if nSent =? SOCKET_ERROR then
        if (errno =? EWOULDBLOCK) || (errno =? EAGAIN) then
          ESleep c_timeout ::> QS_output_send st script' data nBytes
        else
          EStderr (DiagSendError errno) ::> stop SendFailed st script'
      else if nSent <? nBytes then
        ESleep c_timeout ::>
        QS_output_send st script' (data + nSent) (u16 (nBytes - u16 nSent))
      else
        stop Finished st script'
  end.

(** [QS_output] *)
Definition QS_output (st : State) (script : list SendResp) : Run :=
  if l_sock st =? INVALID_SOCKET then
    EStderr DiagInvalidSocket ::> stop NoSocket st script
  else
    ECritE ::>
    match getBlock (priv_ st) (u16 QS_TX_CHUNK) with
    | (Some (data, nBytes), rb) =>
        EGetBlock (u16 QS_TX_CHUNK) (Some (data, u16 nBytes)) ::>
        ECritX ::>
        QS_output_send (set_priv st rb) script data (u16 nBytes)
    | (None, rb) =>
        EGetBlock (u16 QS_TX_CHUNK) None ::>
        ECritX ::> stop Finished (set_priv st rb) script
    end.

(** One call followed by another: the traces in sequence, the end of the
    second. *)
Definition then_run (r1 r2 : Run) : Run :=
  {| trace := trace r1 ++ trace r2; exit := exit r2; final := final r2;
     unread := unread r2 |}.

(** ** The receive path: [QS_rx_input] *)

Record RxRun := mkRxRun {
  rx_trace : list Event;
  rx_final : State
}.

Definition QS_rx_input (st : State) (r : RecvResp) : RxRun :=
  let rx := rxPriv_ st in
  let '(status, got) := recv (l_sock st) r (rx_end rx) in
  if status >? 0 then
    {| rx_trace := [ERecv (l_sock st) (rx_end rx) status; ERxParse];
       rx_final :=
         {| l_sock := l_sock st; priv_ := priv_ st;
            rxPriv_ := {| rx_buf := got ++ drop (length got) (rx_buf rx);
                          rx_end := rx_end rx;
                          rx_head := status;
                          rx_tail := 0 |} |} |}
  else
    {| rx_trace := [ERecv (l_sock st) (rx_end rx) status];
       rx_final := st |}.

(** ** Closing: [QS::onCleanup] and [QS::onReset] *)

Definition onCleanup (st : State) : list Event * State :=
  if negb (l_sock st =? INVALID_SOCKET) then
    ([EClose (l_sock st)],
     {| l_sock := INVALID_SOCKET; priv_ := priv_ st; rxPriv_ := rxPriv_ st |})
  else ([], st).

Definition onReset (st : State) : list Event * State :=
  let '(t, st') := onCleanup st in
  (t ++ [EExit 0], st').

End Pump.

Arguments State : clear implicits.
Arguments Run : clear implicits.
Arguments RxRun : clear implicits.

(** ** Reading a trace *)

(** The bytes at [n] addresses from [p] on. *)
Definition bytes_at (mem : Z -> Byte.byte) (p n : Z) : list Byte.byte :=
  (fun i => mem (p + i)) <$> seqZ 0 n.

(** The bytes the socket took, in the order it took them. *)
Fixpoint accepted (mem : Z -> Byte.byte) (t : list Event) : list Byte.byte :=
  match t with
  | [] => []
  | ESend _ data _ nSent _ :: t' =>
      (if nSent =? SOCKET_ERROR then [] else bytes_at mem data nSent)
      ++ accepted mem t'
  | _ :: t' => accepted mem t'
  end.

(** The blocks [getBlock] returned, in order. *)
Fixpoint fetched (t : list Event) : list (Z * Z) :=
  match t with
  | [] => []
  | EGetBlock _ (Some blk) :: t' => blk :: fetched t'
  | _ :: t' => fetched t'
  end.

Definition block_bytes (mem : Z -> Byte.byte) (blks : list (Z * Z))
  : list Byte.byte :=
  flat_map (fun blk => bytes_at mem (fst blk) (snd blk)) blks.

(** The calls of [send], in order. *)
Definition is_send (e : Event) : bool :=
  match e with ESend _ _ _ _ _ => true | _ => false end.

Definition sends (t : list Event) : list Event := filter is_send t.

Definition is_stderr (e : Event) : bool :=
  match e with EStderr _ => true | _ => false end.

Definition is_getBlock (e : Event) : bool :=
  match e with EGetBlock _ _ => true | _ => false end.

Definition is_socket_io (e : Event) : bool :=
  match e with
  | ESend _ _ _ _ _ | ERecv _ _ _ | ESocket _ _ | EConnect _ _ _
  | EClose _ => true
  | _ => false
  end.

Definition would_block (errno : Z) : bool :=
  (errno =? EWOULDBLOCK) || (errno =? EAGAIN).

(** An answer of the socket that is no hard error. *)
Definition transient (r : SendResp) : bool :=
  match r with
  | Accepts _ => true
  | Fails errno => would_block errno
  end.

(** ** A ring buffer to run the port against *)

(** Modelled from the spec: the transmit ring buffer, whose code is part of
    the tracer and not of the port.  The spec describes it as a
    "fixed-capacity circular byte buffer" from which
    [nextChunk(maxLen)] yields "(ptr, len) | empty", a chunk being a
    "bounded-length contiguous byte span".  The buffer occupies the
    addresses [0 .. ring_end - 1]; [ring_used] bytes wait from [ring_tail]
    on, wrapping at [ring_end]. *)
Record Ring := mkRing {
  ring_end : Z;
  ring_tail : Z;
  ring_used : Z
}.

Definition ring_getBlock (rb : Ring) (maxLen : Z) : option (Z * Z) * Ring :=
  if ring_used rb =? 0 then (None, rb)
  else
    let n := Z.min maxLen (Z.min (ring_used rb) (ring_end rb - ring_tail rb)) in
    let tail' := ring_tail rb + n in
    (Some (ring_tail rb, n),
     {| ring_end := ring_end rb;
        ring_tail := if tail' =? ring_end rb then 0 else tail';
        ring_used := ring_used rb - n |}).

(** ** Draining a buffer that holds finitely many blocks *)

Section Drain.

Context {RB : Type}.
Variable getBlock : RB -> Z -> option (Z * Z) * RB.

(** [yields rb blks]: asked again and again, the buffer in state [rb]
    hands out the blocks [blks] and then reports that it is empty. *)
Inductive yields : RB -> list (Z * Z) -> Prop :=
| yields_nil rb rb' :
    getBlock rb (u16 QS_TX_CHUNK) = (None, rb') -> yields rb []
| yields_cons rb data nBytes rb' blks :
    getBlock rb (u16 QS_TX_CHUNK) = (Some (data, nBytes), rb') ->
    yields rb' blks ->
    yields rb ((data, u16 nBytes) :: blks).

End Drain.

(** An answer of the socket that takes at least one byte. *)
Definition productive (r : SendResp) : bool :=
  match r with
  | Accepts (S _) => true
  | _ => false
  end.

Fixpoint progress (script : list SendResp) : Z :=
  match script with
  | [] => 0
  | r :: script' => (if productive r then 1 else 0) + progress script'
  end.

(** The productive answers that are enough to send the blocks whatever the
    socket does: one per byte and one more per block. *)
Fixpoint work (blks : list (Z * Z)) : Z :=
  match blks with
  | [] => 0
  | blk :: blks' => snd blk + 1 + work blks'
  end.

(** ** What follows a call of [send] *)

(** [each_step P t]: [P e rest] holds of every event [e] of the trace [t]
    and the events [rest] that follow it. *)
Fixpoint each_step (P : Event -> list Event -> Prop) (t : list Event) : Prop :=
  match t with
  | [] => True
  | e :: t' => P e t' /\ each_step P t'
  end.

(** After the back-off sleep the next call is [send] on [nBytes] bytes at
    [data]; if the trace ends with the sleep, the call has not returned
    ([x] is how it ended). *)
Definition retried (x : Exit) (sock data nBytes : Z) (rest : list Event) : Prop :=
  exists rest',
    rest = ESleep c_timeout :: rest' /\
    ((rest' = [] /\ x = StillSending) \/
     exists nSent errno rest'',
       rest' = ESend sock data nBytes nSent errno :: rest'').

(** The four continuations of a call of [send], and the end of the trace
    after a diagnostic. *)
Definition after_send (x : Exit) (e : Event) (rest : list Event) : Prop :=
  match e with
  | ESend sock data nBytes nSent errno =>
      0 <= nBytes < 65536 /\
      ((nSent = SOCKET_ERROR /\ would_block errno = true /\
        retried x sock data nBytes rest)
       \/ (nSent = SOCKET_ERROR /\ would_block errno = false /\
           rest = [EStderr (DiagSendError errno)] /\ x = SendFailed)
       \/ (0 <= nSent < nBytes /\
           retried x sock (data + nSent) (nBytes - nSent) rest)
       \/ (nSent = nBytes /\
           ((rest = [] /\ x = Finished)
            \/ exists req blk rest',
                 rest = ECritE :: EGetBlock req blk :: ECritX :: rest')))
  | EStderr _ => rest = []
  | _ => True
  end.

Definition is_close (e : Event) : bool :=
  match e with EClose _ => true | _ => false end.

Definition is_exit (e : Event) : bool :=
  match e with EExit _ => true | _ => false end.

Definition is_send_error (e : Event) : bool :=
  match e with EStderr (DiagSendError _) => true | _ => false end.

(** ** A concrete run *)

(** A memory whose byte at address [a] is [a mod 256]. *)
Definition demo_mem (a : Z) : Byte.byte :=
  match Byte.of_N (Z.to_N (a mod 256)) with
  | Some b => b
  | None => Byte.x00
  end.

(** A connected port whose 16-byte ring holds 7 bytes from offset 12 on, so
    that they come out as the two blocks [(12, 4)] and [(0, 3)]. *)
Definition demo_state : State Ring :=
  {| l_sock := 5;
     priv_ := {| ring_end := 16; ring_tail := 12; ring_used := 7 |};
     rxPriv_ := {| rx_buf := []; rx_end := QS_RX_SIZE; rx_head := 0; rx_tail := 0 |} |}.

(** The same port before [QS::onStartup] has connected it. *)
Definition demo_unconnected : State Ring :=
  {| l_sock := INVALID_SOCKET;
     priv_ := priv_ demo_state;
     rxPriv_ := rxPriv_ demo_state |}.

(** ** [QS::onStartup] as a whole *)

(** [O_NONBLOCK] of [<fcntl.h>] on the Linux host (octal 04000). *)
Definition O_NONBLOCK : Z := 2048.

Inductive SockOpt := SO_REUSEADDR | SO_LINGER.

(** The diagnostics of [QS::onStartup]. *)
Inductive StartupDiag :=
| DiagCannotResolve (hostName serviceName : string) (status : Z)
| DiagCannotConnect (hostName serviceName : string)
| DiagSocketConfig (errno : Z)
| DiagNonBlocking (errno : Z).

(** The calls of [QS::onStartup]: those an [Event] already describes, and
    the ones only startup makes. *)
Inductive Call :=
| CPort (e : Event)
| CInitBuf (size : Z)                                   (* initBuf(qsBuf, sizeof(qsBuf)) *)
| CRxInitBuf (size : Z)                                 (* rxInitBuf(qsRxBuf, sizeof(qsRxBuf)) *)
| CGetaddrinfo (hostName serviceName : string) (status : Z)
| CFreeaddrinfo
| CFcntlGetfl (fd status : Z)                           (* fcntl(l_sock, F_GETFL, 0) *)
| CFcntlSetfl (fd flags status : Z)                     (* fcntl(l_sock, F_SETFL, flags) *)
| CSetsockopt (fd : Z) (opt : SockOpt) (value : Z)
| CStderr (d : StartupDiag).

(** What the host answers during startup: the status and the list of
    [getaddrinfo], and status and [errno] of the two calls of [fcntl]. *)
Record Host := mkHost {
  host_getaddrinfo : string -> string -> Z * list Candidate;
  host_fcntl_getfl : Z -> Z * Z;
  host_fcntl_setfl : Z -> Z -> Z * Z
}.

(** How [QS::onStartup] ended; [StartupFlushing] is not a return: the
    flush at its end was still sending when the recorded answers of the
    socket ran out. *)
Inductive StartupExit := StartupTrue | StartupFalse | StartupFlushing.

Section Startup.

Context {RB : Type}.

(** The tracer's [initBuf] and [rxInitBuf], which are not part of the
    port: each is handed the size of its static array and leaves the
    buffer in a new state. *)
Variable initBuf : RB -> Z -> RB.
Variable rxInitBuf : RxPriv -> Z -> RxPriv.
Variable getBlock : RB -> Z -> option (Z * Z) * RB.

Record StartupRun := mkStartupRun {
  su_trace : list Call;
  su_exit : StartupExit;
  su_final : State RB;
  su_unread : list SendResp
}.

Definition set_sock (st : State RB) (sock : Z) : State RB :=
  {| l_sock := sock; priv_ := priv_ st; rxPriv_ := rxPriv_ st |}.

(** The state after [initBuf(qsBuf, sizeof(qsBuf))] and
    [rxInitBuf(qsRxBuf, sizeof(qsRxBuf))]. *)
Definition init_buffers (st : State RB) : State RB :=
  {| l_sock := l_sock st;
     priv_ := initBuf (priv_ st) QS_TX_SIZE;
     rxPriv_ := rxInitBuf (rxPriv_ st) QS_RX_SIZE |}.

(** Modelled from the spec: the macro [QS_EXIT()] comes from the
    tracer's header; the spec says that a failure to configure the socket
    "triggers cleanup of partial state", which is [QS::onCleanup].

    [hostName] is the array as found on the stack; the result is [None]
    if a store leaves that array. *)
Definition onStartup (host : Host) (arg : option (list ascii))
    (hostName : list ascii) (st : State RB) (script : list SendResp)
  : option StartupRun :=
  let st := init_buffers st in
  match endpoint_of arg hostName with
  | None => None
  | Some (hostName, serviceName) =>
      let '(status, result) := host_getaddrinfo host hostName serviceName in
      let t := [CInitBuf QS_TX_SIZE; CRxInitBuf QS_RX_SIZE;
                CGetaddrinfo hostName serviceName status] in
      if negb (status =? 0) then
        Some {| su_trace :=
                  t ++ [CStderr (DiagCannotResolve hostName serviceName status)];
                su_exit := StartupFalse; su_final := st; su_unread := script |}
      else
        let '(sock, evs) := onStartup_connect result (l_sock st) in
        let st := set_sock st sock in
        let t := t ++ map CPort evs ++ [CFreeaddrinfo] in
        if l_sock st =? INVALID_SOCKET then
          Some {| su_trace :=
                    t ++ [CStderr (DiagCannotConnect hostName serviceName)];
                  su_exit := StartupFalse; su_final := st; su_unread := script |}
        else
          let '(status, errno) := host_fcntl_getfl host (l_sock st) in
          let t := t ++ [CFcntlGetfl (l_sock st) status] in
          if status =? -1 then
            let '(tc, st') := onCleanup st in
            Some {| su_trace := t ++ CStderr (DiagSocketConfig errno) :: map CPort tc;
                    su_exit := StartupFalse; su_final := st'; su_unread := script |}
          else
            let flags := Z.lor status O_NONBLOCK in
            let '(status', errno') := host_fcntl_setfl host (l_sock st) flags in
            let t := t ++ [CFcntlSetfl (l_sock st) flags status'] in
            if negb (status' =? 0) then
              let '(tc, st') := onCleanup st in
              Some {| su_trace := t ++ CStderr (DiagNonBlocking errno') :: map CPort tc;
                      su_exit := StartupFalse; su_final := st'; su_unread := script |}
            else
              let t := t ++ [CSetsockopt (l_sock st) SO_REUSEADDR 1;
                             CSetsockopt (l_sock st) SO_LINGER 0] in
              let r := onFlush getBlock st script in
              Some {| su_trace := t ++ map CPort (trace r);
                      su_exit := match exit r with
                                 | StillSending => StartupFlushing
                                 | _ => StartupTrue
                                 end;
                      su_final := final r; su_unread := unread r |}
  end.

End Startup.

Arguments StartupRun : clear implicits.

(** ** More ways to read a trace *)

(** The calls an [Event] describes. *)
Definition port_calls (t : list Call) : list Event :=
  flat_map (fun c => match c with CPort e => [e] | _ => [] end) t.

(** The descriptors [socket] returned, and the descriptors closed. *)
Definition opened (t : list Event) : list Z :=
  flat_map (fun e => match e with
                     | ESocket _ fd => if fd =? INVALID_SOCKET then [] else [fd]
                     | _ => []
                     end) t.

Definition closed (t : list Event) : list Z :=
  flat_map (fun e => match e with EClose fd => [fd] | _ => [] end) t.

Definition startup_diags (t : list Call) : list StartupDiag :=
  flat_map (fun c => match c with CStderr d => [d] | _ => [] end) t.

Definition setfl_flags (t : list Call) : list Z :=
  flat_map (fun c => match c with CFcntlSetfl _ flags _ => [flags] | _ => [] end) t.

(** Walking a trace with the critical section open ([true]) or not:
    [QS_CRIT_E_] must find it closed, [QS_CRIT_X_] and [getBlock] must find
    it open, and everything that can take time ([send], [nanosleep], the
    diagnostic) must find it closed.  The result is the state at the end,
    or [None] if a call found the wrong one. *)
Fixpoint crit_walk (inside : bool) (t : list Event) : option bool :=
  match t with
  | [] => Some inside
  | ECritE :: t' => if inside then None else crit_walk true t'
  | ECritX :: t' => if inside then crit_walk false t' else None
  | EGetBlock _ _ :: t' => if inside then crit_walk inside t' else None
  | ESend _ _ _ _ _ :: t' | ESleep _ :: t' | EStderr _ :: t' =>
      if inside then None else crit_walk inside t'
  | _ :: t' => crit_walk inside t'
  end.

(** Walking a trace with the part of the last block that is still to be
    sent, as address and length: every [send] must be on exactly that part,
    and a new block may only come when nothing is left.  The result is what
    is left at the end, or [None] if a call did otherwise. *)
Fixpoint remainder_walk (cur : Z * Z) (t : list Event) : option (Z * Z) :=
  match t with
  | [] => Some cur
  | EGetBlock _ (Some blk) :: t' =>
      if snd cur =? 0 then remainder_walk blk t' else None
  | ESend _ data nBytes nSent _ :: t' =>
      if (data =? fst cur) && (nBytes =? snd cur) then
        if nSent =? SOCKET_ERROR then remainder_walk cur t'
        else if (0 <=? nSent) && (nSent <=? nBytes)
             then remainder_walk (data + nSent, nBytes - nSent) t'
             else None
      else None
  | _ :: t' => remainder_walk cur t'
  end.

Definition is_sleep (e : Event) : bool :=
  match e with ESleep _ => true | _ => false end.

Definition is_rxParse (e : Event) : bool :=
  match e with ERxParse => true | _ => false end.

(** ** A concrete host *)

(** Modelled from the spec: "initialize the transmit ring buffer and the
    receive window (sizes fixed at build time)": an empty ring and an empty
    window of the given size. *)
Definition ring_initBuf (rb : Ring) (size : Z) : Ring :=
  {| ring_end := size; ring_tail := 0; ring_used := 0 |}.

Definition window_rxInitBuf (rx : RxPriv) (size : Z) : RxPriv :=
  {| rx_buf := repeat Byte.x00 (Z.to_nat size); rx_end := size;
     rx_head := 0; rx_tail := 0 |}.

(** A host that resolves every name to two addresses, refuses a socket for
    the first, connects the second on descriptor 7, and reports the flags
    [2] ([O_RDWR]) for it. *)
Definition demo_host : Host :=
  {| host_getaddrinfo := fun _ _ =>
       (0, [ {| cand_addr := 1; cand_socket := INVALID_SOCKET; cand_connect := 0 |};
             {| cand_addr := 2; cand_socket := 7; cand_connect := 0 |} ]);
     host_fcntl_getfl := fun _ => (2, 0);
     host_fcntl_setfl := fun _ _ => (0, 0) |}.

(** A host on which no name resolves ([EAI_NONAME] is [-2]). *)
Definition demo_host_unresolved : Host :=
  {| host_getaddrinfo := fun _ _ => (-2, []);
     host_fcntl_getfl := fun _ => (2, 0);
     host_fcntl_setfl := fun _ _ => (0, 0) |}.

(** A host that connects but does not let the socket be made
    non-blocking. *)
Definition demo_host_blocking : Host :=
  {| host_getaddrinfo := host_getaddrinfo demo_host;
     host_fcntl_getfl := fun _ => (2, 0);
     host_fcntl_setfl := fun _ _ => (-1, 22) |}.

(** ** Characters of a configuration string *)

(** A character that can stand in the host part, and one that can stand in
    the service part. *)
Definition host_char (c : ascii) : bool :=
  negb (Ascii.eqb c NUL) && negb (Ascii.eqb c COLON).

Definition text_char (c : ascii) : bool := negb (Ascii.eqb c NUL).

(** The time of a clock reading in nanoseconds. *)
Definition nanoseconds (t : timespec) : Z := tv_sec t * 1000000000 + tv_nsec t.

(** ** Tactics *)

(** Unfolding the record of a run, and nothing else. *)
Ltac run_simpl :=
  cbn [trace exit final unread emit stop accepted fetched sends filter
       is_send is_stderr is_getBlock block_bytes flat_map fst snd app
       l_sock priv_ rxPriv_ set_priv] in *;
  rewrite ?(Z.eqb_refl SOCKET_ERROR); cbn [app].

(** Taking the first event off both sides of [e :: t = pre ++ g :: post]. *)
Ltac peel H :=
  match type of H with
  | [] = ?pre ++ _ :: _ => destruct pre; discriminate H
  | _ :: _ = ?pre ++ _ :: _ =>
      let e := fresh "e" in
      destruct pre as [|e pre];
      [ try discriminate H
      | rewrite <- app_comm_cons in H; injection H as <- H ]
  end.

(** * Proofs *)

(** ** Machine integers *)

Lemma u16_range (x : Z) : 0 <= u16 x < 65536.
Proof. unfold u16. change (2 ^ 16) with 65536. apply Z.mod_pos_bound. lia. Qed.

Lemma u16_small (x : Z) : 0 <= x < 65536 -> u16 x = x.
Proof. intros H. unfold u16. change (2 ^ 16) with 65536. apply Z.mod_small. exact H. Qed.

Lemma ctr_bits_split (w : TimeCtrWidth) :
  exists k, 0 < k /\ 2 ^ 64 = k * 2 ^ ctr_bits w.
Proof.
  destruct w; simpl.
  - exists (2 ^ 56). split; [lia | reflexivity].
  - exists (2 ^ 48). split; [lia | reflexivity].
  - exists (2 ^ 32). split; [lia | reflexivity].
  - exists 1. split; [lia | reflexivity].
Qed.

Lemma ctr_modulus_pos (w : TimeCtrWidth) : 0 < 2 ^ ctr_bits w.
Proof. destruct w; simpl; lia. Qed.

(** Wrapping a [long] is invisible after the cast to the narrower counter. *)
Lemma to_QSTimeCtr_s64 (w : TimeCtrWidth) (x : Z) :
  to_QSTimeCtr w (s64 x) = to_QSTimeCtr w x.
Proof.
  unfold to_QSTimeCtr, s64.
  destruct (ctr_bits_split w) as (k & Hk & E).
  pose proof (ctr_modulus_pos w) as Hm.
  rewrite (Z.mod_eq (x + 2 ^ 63) (2 ^ 64)) by lia.
  rewrite E.
  replace (x + 2 ^ 63 - k * 2 ^ ctr_bits w * ((x + 2 ^ 63) / (k * 2 ^ ctr_bits w)) - 2 ^ 63)
    with (x + (- (k * ((x + 2 ^ 63) / (k * 2 ^ ctr_bits w)))) * 2 ^ ctr_bits w) by ring.
  apply Z_mod_plus_full.
Qed.

Lemma to_QSTimeCtr_add_s64 (w : TimeCtrWidth) (x y : Z) :
  to_QSTimeCtr w (s64 x + y) = to_QSTimeCtr w (x + y).
Proof.
  pose proof (to_QSTimeCtr_s64 w x) as H. unfold to_QSTimeCtr in *.
  rewrite (Zplus_mod (s64 x)), H, <- Zplus_mod. reflexivity.
Qed.

(** The conversion as the code writes it, with C's truncating division. *)
Lemma onGetTime_formula (w : TimeCtrWidth) (t : timespec) :
  onGetTime w t = (tv_sec t * 10000000 + tv_nsec t ÷ 100) mod 2 ^ ctr_bits w.
Proof.
  unfold onGetTime.
  rewrite to_QSTimeCtr_s64, to_QSTimeCtr_add_s64. reflexivity.
Qed.

Lemma onGetTime_ticks (w : TimeCtrWidth) (t : timespec) :
  0 <= tv_nsec t -> onGetTime w t = spec_ticks_100ns t mod 2 ^ ctr_bits w.
Proof.
  intros H. rewrite onGetTime_formula. unfold spec_ticks_100ns.
  rewrite Z.quot_div_nonneg by lia. reflexivity.
Qed.

Lemma ticks_monotone (t1 t2 : timespec) :
  timespec_valid t1 -> timespec_valid t2 -> timespec_le t1 t2 ->
  spec_ticks_100ns t1 <= spec_ticks_100ns t2.
Proof.
  unfold timespec_valid, timespec_le, spec_ticks_100ns.
  intros H1 H2 Hle.
  assert (0 <= tv_nsec t1 / 100 < 10000000) by
    (split; [apply Z.div_pos; lia | apply Z.div_lt_upper_bound; lia]).
  assert (0 <= tv_nsec t2 / 100) by (apply Z.div_pos; lia).
  destruct Hle as [Hlt | (Heq & Hns)].
  - nia.
  - rewrite Heq. apply Z.add_le_mono_l. apply Z.div_le_mono; lia.
Qed.

(** C9: [QS::onGetTime] returns [seconds * 10000000 + nanoseconds / 100], a
    count of units of 100 ns, reduced modulo the width of [QSTimeCtr]; of
    two readings of the clock of which the second is not the earlier, the
    count of the second is not the smaller, so the returned values do not
    decrease as long as both counts lie in the same period of the counter,
    and in any case their difference modulo the width is the elapsed
    count. *)
Theorem onGetTime_units_and_order (w : TimeCtrWidth) (t1 t2 : timespec) :
  timespec_valid t1 -> timespec_valid t2 -> timespec_le t1 t2 ->
  onGetTime w t1 = (tv_sec t1 * 10000000 + tv_nsec t1 / 100) mod 2 ^ ctr_bits w /\
  onGetTime w t2 = (tv_sec t2 * 10000000 + tv_nsec t2 / 100) mod 2 ^ ctr_bits w /\
  spec_ticks_100ns t1 <= spec_ticks_100ns t2 /\
  (spec_ticks_100ns t1 / 2 ^ ctr_bits w = spec_ticks_100ns t2 / 2 ^ ctr_bits w ->
   onGetTime w t1 <= onGetTime w t2) /\
  (onGetTime w t2 - onGetTime w t1) mod 2 ^ ctr_bits w
  = (spec_ticks_100ns t2 - spec_ticks_100ns t1) mod 2 ^ ctr_bits w.
Proof.
  intros V1 V2 Hle.
  pose proof (ticks_monotone t1 t2 V1 V2 Hle) as Hmono.
  pose proof (ctr_modulus_pos w) as Hm.
  unfold timespec_valid in V1, V2.
  rewrite !onGetTime_ticks by lia.
  fold (spec_ticks_100ns t1) (spec_ticks_100ns t2).
  repeat split; try assumption.
  - intros Hq.
    rewrite (Z.mod_eq (spec_ticks_100ns t1)), (Z.mod_eq (spec_ticks_100ns t2)) by lia.
    rewrite Hq. lia.
  - rewrite <- Zminus_mod. reflexivity.
Qed.

Lemma onGetTime_units_and_order_witness :
  let t1 := mkTimespec 429 496729500 in
  let t2 := mkTimespec 429 496729700 in
  onGetTime Ctr32 t1 = 2 ^ 32 - 1 /\ onGetTime Ctr32 t2 = 1 /\
  (onGetTime Ctr32 t2 - onGetTime Ctr32 t1) mod 2 ^ 32 = 2.
Proof.
  intros t1 t2.
  assert (V1 : timespec_valid t1) by (unfold timespec_valid; simpl; lia).
  assert (V2 : timespec_valid t2) by (unfold timespec_valid; simpl; lia).
  assert (L : timespec_le t1 t2) by (right; simpl; lia).
  destruct (onGetTime_units_and_order Ctr32 t1 t2 V1 V2 L) as (E1 & E2 & _ & _ & D).
  split; [rewrite E1; reflexivity |].
  split; [rewrite E2; reflexivity |].
  etransitivity; [exact D | reflexivity].
Defined.

(** ** Endpoint parsing *)

Lemma host_portion_length (src : list ascii) :
  (length (host_portion src) <= length src)%nat.
Proof.
  induction src as [|c src IH]; simpl; [lia |].
  destruct (Ascii.eqb c NUL || Ascii.eqb c COLON); simpl; lia.
Qed.

Lemma host_portion_prefix (src : list ascii) (k : nat) :
  (k <= length (host_portion src))%nat -> take k src = take k (host_portion src).
Proof.
  revert k. induction src as [|c src IH]; intros k Hk; simpl in *.
  - reflexivity.
  - destruct (Ascii.eqb c NUL || Ascii.eqb c COLON); simpl in *.
    + assert (k = 0%nat) as -> by lia. reflexivity.
    + destruct k as [|k]; [reflexivity |]. simpl. f_equal. apply IH. lia.
Qed.

Lemma host_portion_chars (src : list ascii) :
  Forall (fun c => Ascii.eqb c NUL = false /\ Ascii.eqb c COLON = false)
         (host_portion src).
Proof.
  induction src as [|c src IH]; simpl; [constructor |].
  destruct (Ascii.eqb c NUL) eqn:E1; simpl; [constructor |].
  destruct (Ascii.eqb c COLON) eqn:E2; simpl; [constructor |].
  constructor; [split; assumption | exact IH].
Qed.

(** Where the scan stops when it does not: on a character of the host. *)
Lemma host_portion_inside (src : list ascii) (k : nat) :
  (k < length (host_portion src))%nat ->
  Ascii.eqb (deref (drop k src)) COLON = false.
Proof.
  revert k. induction src as [|c src IH]; intros k Hk; simpl in *; [lia |].
  destruct (Ascii.eqb c NUL) eqn:E1; simpl in *; [lia |].
  destruct (Ascii.eqb c COLON) eqn:E2; simpl in *; [lia |].
  destruct k as [|k]; simpl; [exact E2 |]. apply IH. lia.
Qed.

Lemma c_string_app_NUL (pre rest : list ascii) :
  Forall (fun c => Ascii.eqb c NUL = false /\ Ascii.eqb c COLON = false) pre ->
  c_string (pre ++ NUL :: rest) = pre.
Proof.
  induction 1 as [|c pre (Hc & _) _ IH]; simpl.
  - reflexivity.
  - rewrite Hc, IH. reflexivity.
Qed.

Lemma onStartup_copy_host_closed_form (src : list ascii) :
  forall (dst : nat) (hostName : list ascii),
    length hostName = sizeof_hostName -> (dst <= 127)%nat ->
    let k := Nat.min (length (host_portion src)) (127 - dst) in
    onStartup_copy_host src dst hostName
    = Some (drop k src, (dst + k)%nat,
            take dst hostName ++ take k src ++ drop (dst + k) hostName).
Proof.
  induction src as [|c src IH]; intros dst hostName Hlen Hdst; simpl.
  - rewrite Nat.add_0_r, take_drop. reflexivity.
  - destruct (Ascii.eqb c NUL) eqn:E1; simpl.
    { rewrite Nat.add_0_r, take_drop. reflexivity. }
    destruct (Ascii.eqb c COLON) eqn:E2; simpl.
    { rewrite Nat.add_0_r, take_drop. reflexivity. }
    unfold sizeof_hostName in Hlen.
    destruct (dst <? 127)%nat eqn:E3.
    + apply Nat.ltb_lt in E3.
      unfold store.
      assert ((dst <? length hostName)%nat = true) as -> by (apply Nat.ltb_lt; lia).
      rewrite IH by (rewrite ?length_insert; unfold sizeof_hostName; lia).
      replace (127 - dst)%nat with (S (127 - S dst)) by lia.
      simpl.
      set (k := Nat.min (length (host_portion src)) (127 - S dst)).
      rewrite (take_S_r _ dst c) by (apply list_lookup_insert_eq; lia).
      rewrite take_insert_ge by lia.
      rewrite drop_insert_lt by lia.
      rewrite <- app_assoc. simpl.
      rewrite !Nat.add_succ_r. reflexivity.
    + apply Nat.ltb_ge in E3.
      assert (dst = 127%nat) as -> by lia. simpl.
      rewrite take_drop. reflexivity.
Qed.

(** What lines 97-113 compute, whatever the array held before: the first
    [k] characters of the host portion, a terminator, and the rest of the
    array untouched; [serviceName] is the text behind the character the
    scan stopped at when that is a colon. *)
Lemma onStartup_endpoint_closed_form (arg : option (list ascii)) (hostName : list ascii) :
  length hostName = sizeof_hostName ->
  let src := match arg with Some a => a | None => cstr "localhost" end in
  let k := Nat.min (length (host_portion src)) 127 in
  onStartup_endpoint arg hostName
  = Some (take k src ++ NUL :: drop (S k) hostName,
          if Ascii.eqb (deref (drop k src)) COLON
          then drop (S k) src else cstr "6601").
Proof.
  intros Hlen src k. unfold onStartup_endpoint. fold src.
  rewrite (onStartup_copy_host_closed_form src 0 hostName Hlen) by lia.
  rewrite Nat.sub_0_r. fold k. simpl.
  assert (Hk : (k <= 127)%nat) by (unfold k; lia).
  assert (Hks : length (take k src) = k).
  { rewrite length_take. pose proof (host_portion_length src). unfold k. lia. }
  unfold store. unfold sizeof_hostName in Hlen.
  assert ((k <? length (take k src ++ drop k hostName))%nat = true) as ->.
  { apply Nat.ltb_lt. rewrite length_app, Hks, length_drop. lia. }
  f_equal. f_equal.
  - rewrite insert_app_r_alt by lia. rewrite Hks, Nat.sub_diag.
    destruct (drop k hostName) as [|h rest] eqn:E.
    + apply (f_equal length) in E. rewrite length_drop in E. simpl in E. lia.
    + simpl. replace (drop (S k) hostName) with rest; [reflexivity |].
      replace (S k) with (k + 1)%nat by lia.
      rewrite <- (drop_drop hostName 1 k), E. reflexivity.
  - destruct (Ascii.eqb (deref (drop k src)) COLON); [| reflexivity].
    replace (S k) with (k + 1)%nat by lia.
    rewrite <- (drop_drop src 1 k). destruct (drop k src); reflexivity.
Qed.

(** The host name handed to [getaddrinfo] is the host portion cut to 127
    characters. *)
Lemma endpoint_of_closed_form (arg : option (list ascii)) (hostName : list ascii) :
  length hostName = sizeof_hostName ->
  let src := match arg with Some a => a | None => cstr "localhost" end in
  let k := Nat.min (length (host_portion src)) 127 in
  endpoint_of arg hostName
  = Some (string_of_list_ascii (take k (host_portion src)),
          string_of_list_ascii
            (c_string (if Ascii.eqb (deref (drop k src)) COLON
                       then drop (S k) src else cstr "6601"))).
Proof.
  intros Hlen src k. unfold endpoint_of.
  rewrite (onStartup_endpoint_closed_form arg hostName Hlen). fold src k.
  rewrite (host_portion_prefix src k) by (unfold k; lia).
  rewrite c_string_app_NUL; [reflexivity |].
  apply Forall_take, host_portion_chars.
Qed.

(** An over-long host portion: the scan stops inside it, and the service
    stays the default whatever follows the host. *)
Lemma endpoint_of_overlong (arg hostName : list ascii) :
  length hostName = sizeof_hostName ->
  (127 < length (host_portion arg))%nat ->
  endpoint_of (Some arg) hostName
  = Some (string_of_list_ascii (take 127 (host_portion arg)), "6601"%string).
Proof.
  intros Hlen Hlong.
  rewrite (endpoint_of_closed_form (Some arg) hostName Hlen).
  replace (Nat.min (length (host_portion arg)) 127) with 127%nat by lia.
  rewrite (host_portion_inside arg 127 Hlong). reflexivity.
Qed.

(** A host portion that fits: the host is all of it and the service is the
    text behind the colon, if there is one. *)
Lemma endpoint_of_fitting (arg hostName : list ascii) :
  length hostName = sizeof_hostName ->
  (length (host_portion arg) <= 127)%nat ->
  endpoint_of (Some arg) hostName
  = Some (string_of_list_ascii (host_portion arg),
          string_of_list_ascii
            (c_string
               (if Ascii.eqb (deref (drop (length (host_portion arg)) arg)) COLON
                then drop (S (length (host_portion arg))) arg
                else cstr "6601"))).
Proof.
  intros Hlen Hfit.
  rewrite (endpoint_of_closed_form (Some arg) hostName Hlen).
  replace (Nat.min (length (host_portion arg)) 127)
    with (length (host_portion arg)) by lia.
  rewrite firstn_all. reflexivity.
Qed.

(** C10: whatever the configuration string and whatever the 128-byte array
    held, the copy loop and the store of the terminator stay inside the
    array (no store is refused), and afterwards the array holds at most 127
    characters other than NUL followed by a NUL at an index of at most 127;
    nothing behind that NUL was written. *)
Theorem hostName_writes_in_bounds (arg : option (list ascii)) (hostName0 : list ascii) :
  length hostName0 = sizeof_hostName ->
  exists (hostName serviceName : list ascii) (n : nat),
    onStartup_endpoint arg hostName0 = Some (hostName, serviceName) /\
    length hostName = sizeof_hostName /\
    (n <= 127)%nat /\
    hostName !! n = Some NUL /\
    (forall i, (i < n)%nat -> exists c, hostName !! i = Some c /\ c <> NUL) /\
    drop (S n) hostName = drop (S n) hostName0.
Proof.
  intros Hlen.
  rewrite (onStartup_endpoint_closed_form arg hostName0 Hlen).
  set (src := match arg with Some a => a | None => cstr "localhost" end).
  set (k := Nat.min (length (host_portion src)) 127).
  assert (Hk : (k <= 127)%nat) by (unfold k; lia).
  assert (Hks : length (take k src) = k).
  { rewrite length_take. pose proof (host_portion_length src). unfold k. lia. }
  eexists _, _, k. split; [reflexivity |].
  unfold sizeof_hostName in *.
  split; [| split; [exact Hk | split; [| split]]].
  - rewrite length_app, Hks. simpl. rewrite length_drop. lia.
  - rewrite lookup_app_r by lia. rewrite Hks, Nat.sub_diag. reflexivity.
  - intros i Hi.
    rewrite lookup_app_l by lia.
    rewrite (host_portion_prefix src k) by (unfold k; lia).
    destruct (take k (host_portion src) !! i) as [c|] eqn:E.
    + exists c. split; [reflexivity |].
      assert (Hin : c ∈ take k (host_portion src)) by (apply list_elem_of_lookup; eauto).
      assert (HF : Forall (fun c => Ascii.eqb c NUL = false /\ Ascii.eqb c COLON = false)
                          (take k (host_portion src)))
        by (apply Forall_take, host_portion_chars).
      rewrite Forall_forall in HF. destruct (HF c Hin) as (Hc & _).
      intros ->. unfold NUL in Hc. rewrite Ascii.eqb_refl in Hc. discriminate.
    + apply lookup_ge_None in E.
      rewrite <- (host_portion_prefix src k) in E by (unfold k; lia). lia.
  - rewrite drop_app_ge by lia. rewrite Hks.
    replace (S k - k)%nat with 1%nat by lia. reflexivity.
Qed.

Lemma hostName_writes_in_bounds_witness :
  exists (hostName serviceName : list ascii) (n : nat),
    onStartup_endpoint (Some (repeat "a"%char 300)) (repeat "?"%char 128)
    = Some (hostName, serviceName) /\
    length hostName = sizeof_hostName /\
    (n <= 127)%nat /\
    hostName !! n = Some NUL /\
    (forall i, (i < n)%nat -> exists c, hostName !! i = Some c /\ c <> NUL) /\
    drop (S n) hostName = drop (S n) (repeat "?"%char 128).
Proof.
  apply (hostName_writes_in_bounds (Some (repeat "a"%char 300)) (repeat "?"%char 128)).
  reflexivity.
Defined.

(** ** Connecting *)

Lemma onStartup_connect_all_sockets_fail (rp : list Candidate) (s : Z) :
  Forall (fun c => cand_socket c = INVALID_SOCKET) rp ->
  onStartup_connect rp s
  = (match rp with [] => s | _ => INVALID_SOCKET end,
     map (fun c => ESocket (cand_addr c) INVALID_SOCKET) rp).
Proof.
  intros H. revert s. induction H as [|c rp Hc _ IH]; intros s; [reflexivity |].
  simpl. rewrite Hc. simpl. rewrite IH. destruct rp; reflexivity.
Qed.

(** The loop passes over the candidates for which no socket can be made and
    ends with the first one for which one can, whether or not [connect]
    succeeds on it. *)
Lemma onStartup_connect_stops_at_first_socket (skipped : list Candidate)
    (c : Candidate) (later : list Candidate) (s : Z) :
  Forall (fun c => cand_socket c = INVALID_SOCKET) skipped ->
  cand_socket c <> INVALID_SOCKET ->
  onStartup_connect (skipped ++ c :: later) s
  = (if cand_connect c =? SOCKET_ERROR then INVALID_SOCKET else cand_socket c,
     map (fun c => ESocket (cand_addr c) INVALID_SOCKET) skipped
     ++ ESocket (cand_addr c) (cand_socket c)
        :: EConnect (cand_socket c) (cand_addr c) (cand_connect c)
        :: (if cand_connect c =? SOCKET_ERROR then [EClose (cand_socket c)] else [])).
Proof.
  intros Hsk Hc. revert s.
  induction Hsk as [|c0 skipped H0 _ IH]; intros s; simpl.
  - apply Z.eqb_neq in Hc. rewrite Hc. simpl.
    destruct (cand_connect c =? SOCKET_ERROR); reflexivity.
  - rewrite H0. simpl. rewrite IH. reflexivity.
Qed.

Lemma onStartup_connect_at_most_one_connect (rp : list Candidate) (s : Z) :
  (length (connect_attempts (snd (onStartup_connect rp s))) <= 1)%nat.
Proof.
  revert s. induction rp as [|c rp IH]; intros s; simpl; [lia |].
  destruct (cand_socket c =? INVALID_SOCKET); simpl.
  - specialize (IH (cand_socket c)).
    destruct (onStartup_connect rp (cand_socket c)) as [s' evs]. simpl in *. exact IH.
  - destruct (cand_connect c =? SOCKET_ERROR); simpl; lia.
Qed.

(** As long as no candidate with a socket refuses the connection, the loop
    does what the spec asks. *)
Lemma onStartup_connect_without_connect_failure (rp : list Candidate) :
  Forall (fun c => cand_socket c = INVALID_SOCKET \/ cand_connect c <> SOCKET_ERROR) rp ->
  fst (onStartup_connect rp INVALID_SOCKET) = spec_first_connectable rp.
Proof.
  induction 1 as [|c rp Hc _ IH]; simpl; [reflexivity |].
  destruct (cand_socket c =? INVALID_SOCKET) eqn:E; simpl.
  - apply Z.eqb_eq in E. rewrite E.
    destruct (onStartup_connect rp INVALID_SOCKET) as [s' evs]. simpl in *. exact IH.
  - destruct Hc as [Hc | Hc]; [apply Z.eqb_neq in E; contradiction |].
    apply Z.eqb_neq in Hc. rewrite Hc. reflexivity.
Qed.

(** C4: the candidate loop on a list of two candidates, for both of which
    [socket] succeeds, the first of which refuses the connection and the
    second of which would accept it: the loop closes the first socket and
    ends with [l_sock == INVALID_SOCKET]; it never calls [socket] or
    [connect] for the second candidate, which the loop the spec describes
    would have connected. *)
Theorem onStartup_connect_ends_at_first_refusal :
  let rp := [ {| cand_addr := 1; cand_socket := 3; cand_connect := SOCKET_ERROR |};
              {| cand_addr := 2; cand_socket := 4; cand_connect := 0 |} ] in
  onStartup_connect rp INVALID_SOCKET
  = (INVALID_SOCKET, [ESocket 1 3; EConnect 3 1 SOCKET_ERROR; EClose 3]) /\
  connect_attempts (snd (onStartup_connect rp INVALID_SOCKET)) = [1] /\
  spec_first_connectable rp = 4.
Proof. repeat split. Qed.

(** ** Endpoint parsing: the inputs of the spec *)

Lemma endpoint_of_host_and_service (hostName : list ascii) :
  length hostName = sizeof_hostName ->
  endpoint_of (Some (cstr "example.org:7000")) hostName
  = Some ("example.org"%string, "7000"%string).
Proof. intros H. rewrite (endpoint_of_fitting _ _ H); [reflexivity | simpl; lia]. Qed.

Lemma endpoint_of_host_only (hostName : list ascii) :
  length hostName = sizeof_hostName ->
  endpoint_of (Some (cstr "example.org")) hostName
  = Some ("example.org"%string, "6601"%string).
Proof. intros H. rewrite (endpoint_of_fitting _ _ H); [reflexivity | simpl; lia]. Qed.

Lemma endpoint_of_nullptr (hostName : list ascii) :
  length hostName = sizeof_hostName ->
  endpoint_of None hostName = Some ("localhost"%string, "6601"%string).
Proof. intros H. rewrite (endpoint_of_closed_form None _ H). reflexivity. Qed.

(** C5: the parsing of lines 97-113 on the inputs the claim names, the
    array being filled with ['?'] beforehand.  ["example.org:7000"] gives
    host ["example.org"] and service ["7000"]; ["example.org"] gives the
    default service ["6601"]; [nullptr] gives host ["localhost"]; a host of
    128 characters followed by [":7000"] gives the host cut to 127
    characters and the default service ["6601"], not ["7000"]: the scan
    stops inside the host and the text behind it is never looked at. *)
Theorem endpoint_parsing_cases :
  let stack := repeat "?"%char 128 in
  endpoint_of (Some (cstr "example.org:7000")) stack
  = Some ("example.org"%string, "7000"%string) /\
  endpoint_of (Some (cstr "example.org")) stack
  = Some ("example.org"%string, "6601"%string) /\
  endpoint_of None stack = Some ("localhost"%string, "6601"%string) /\
  endpoint_of (Some (repeat "h"%char 128 ++ cstr ":7000")) stack
  = Some (string_of_list_ascii (repeat "h"%char 127), "6601"%string).
Proof. vm_compute. repeat split. Qed.

(** ** The transmit path *)

Lemma bytes_at_split (mem : Z -> Byte.byte) (p m n : Z) :
  0 <= m <= n ->
  bytes_at mem p n = bytes_at mem p m ++ bytes_at mem (p + m) (n - m).
Proof.
  intros H. unfold bytes_at.
  replace n with (m + (n - m)) at 1 by lia.
  rewrite seqZ_app by lia. rewrite fmap_app. f_equal.
  rewrite Z.add_0_l.
  replace (seqZ m (n - m)) with (Z.add m <$> seqZ 0 (n - m))
    by (rewrite fmap_add_seqZ; f_equal; lia).
  rewrite <- list_fmap_compose.
  apply list_fmap_ext. intros _ i _. simpl. f_equal. lia.
Qed.

(** The four ways a call of [send] can go. *)
Lemma send_cases (r : SendResp) (n : Z) :
  (exists e, r = Fails e /\ would_block e = true) \/
  (exists e, r = Fails e /\ would_block e = false) \/
  (exists room, r = Accepts room /\ Z.of_nat room < n) \/
  (exists room, r = Accepts room /\ n <= Z.of_nat room).
Proof.
  destruct r as [room | e].
  - destruct (Z.ltb_spec (Z.of_nat room) n); [right; right; left | right; right; right]; eauto.
  - destruct (would_block e) eqn:E; [left | right; left]; eauto.
Qed.

Section PumpProofs.

Context {RB : Type} (getBlock : RB -> Z -> option (Z * Z) * RB).
Implicit Types (st : State RB) (script : list SendResp).

(** *** One turn of the send loops *)

Lemma onFlush_send_would_block st e script d n :
  would_block e = true ->
  onFlush_send getBlock st (Fails e :: script) d n
  = emit (ESend (l_sock st) d n SOCKET_ERROR e)
      (emit (ESleep c_timeout) (onFlush_send getBlock st script d n)).
Proof. intros H. unfold would_block in H. simpl. rewrite H. reflexivity. Qed.

Lemma onFlush_send_hard_error st e script d n :
  would_block e = false ->
  onFlush_send getBlock st (Fails e :: script) d n
  = emit (ESend (l_sock st) d n SOCKET_ERROR e)
      (emit (EStderr (DiagSendError e)) (stop SendFailed st script)).
Proof. intros H. unfold would_block in H. simpl. rewrite H. reflexivity. Qed.

Lemma onFlush_send_partial st room script d n :
  0 <= n < 65536 -> Z.of_nat room < n ->
  onFlush_send getBlock st (Accepts room :: script) d n
  = emit (ESend (l_sock st) d n (Z.of_nat room) 0)
      (emit (ESleep c_timeout)
         (onFlush_send getBlock st script (d + Z.of_nat room) (n - Z.of_nat room))).
Proof.
  intros Hn Hlt. simpl.
  rewrite Z.min_l by lia.
  assert ((Z.of_nat room =? SOCKET_ERROR) = false) as ->
    by (apply Z.eqb_neq; unfold SOCKET_ERROR; lia).
  assert ((Z.of_nat room <? n) = true) as -> by (apply Z.ltb_lt; lia).
  rewrite (u16_small (Z.of_nat room)) by lia.
  rewrite u16_small by lia. reflexivity.
Qed.

Lemma onFlush_send_full st room script d n :
  0 <= n -> n <= Z.of_nat room ->
  onFlush_send getBlock st (Accepts room :: script) d n
  = emit (ESend (l_sock st) d n n 0) (onFlush_while getBlock st script).
Proof.
  intros Hn Hle. simpl.
  rewrite Z.min_r by lia.
  assert ((n =? SOCKET_ERROR) = false) as ->
    by (apply Z.eqb_neq; unfold SOCKET_ERROR; lia).
  assert ((n <? n) = false) as -> by (apply Z.ltb_ge; lia).
  reflexivity.
Qed.

Lemma QS_output_send_would_block st e script d n :
  would_block e = true ->
  QS_output_send st (Fails e :: script) d n
  = emit (ESend (l_sock st) d n SOCKET_ERROR e)
      (emit (ESleep c_timeout) (QS_output_send st script d n)).
Proof. intros H. unfold would_block in H. simpl. rewrite H. reflexivity. Qed.

Lemma QS_output_send_hard_error st e script d n :
  would_block e = false ->
  QS_output_send st (Fails e :: script) d n
  = emit (ESend (l_sock st) d n SOCKET_ERROR e)
      (emit (EStderr (DiagSendError e)) (stop SendFailed st script)).
Proof. intros H. unfold would_block in H. simpl. rewrite H. reflexivity. Qed.

Lemma QS_output_send_partial st room script d n :
  0 <= n < 65536 -> Z.of_nat room < n ->
  QS_output_send st (Accepts room :: script) d n
  = emit (ESend (l_sock st) d n (Z.of_nat room) 0)
      (emit (ESleep c_timeout)
         (QS_output_send st script (d + Z.of_nat room) (n - Z.of_nat room))).
Proof.
  intros Hn Hlt. simpl.
  rewrite Z.min_l by lia.
  assert ((Z.of_nat room =? SOCKET_ERROR) = false) as ->
    by (apply Z.eqb_neq; unfold SOCKET_ERROR; lia).
  assert ((Z.of_nat room <? n) = true) as -> by (apply Z.ltb_lt; lia).
  rewrite (u16_small (Z.of_nat room)) by lia.
  rewrite u16_small by lia. reflexivity.
Qed.

Lemma QS_output_send_full st room script d n :
  0 <= n -> n <= Z.of_nat room ->
  QS_output_send st (Accepts room :: script) d n
  = emit (ESend (l_sock st) d n n 0) (stop Finished st script).
Proof.
  intros Hn Hle. simpl.
  rewrite Z.min_r by lia.
  assert ((n =? SOCKET_ERROR) = false) as ->
    by (apply Z.eqb_neq; unfold SOCKET_ERROR; lia).
  assert ((n <? n) = false) as -> by (apply Z.ltb_ge; lia).
  reflexivity.
Qed.

(** The head of the [while], by what [getBlock] returns. *)
Lemma onFlush_while_block st script d n rb :
  getBlock (priv_ st) (u16 QS_TX_CHUNK) = (Some (d, n), rb) ->
  onFlush_while getBlock st script
  = emit ECritE
      (emit (EGetBlock (u16 QS_TX_CHUNK) (Some (d, u16 n)))
         (emit ECritX (onFlush_send getBlock (set_priv st rb) script d (u16 n)))).
Proof. intros H. unfold onFlush_while. rewrite H. reflexivity. Qed.

Lemma onFlush_while_empty st script rb :
  getBlock (priv_ st) (u16 QS_TX_CHUNK) = (None, rb) ->
  onFlush_while getBlock st script
  = emit ECritE
      (emit (EGetBlock (u16 QS_TX_CHUNK) None)
         (emit ECritX (stop Finished (set_priv st rb) script))).
Proof. intros H. unfold onFlush_while. rewrite H. reflexivity. Qed.

(** *** What follows each call of [send] *)

Lemma onFlush_send_head script st d n :
  (trace (onFlush_send getBlock st script d n) = [] /\
   exit (onFlush_send getBlock st script d n) = StillSending) \/
  exists m e rest,
    trace (onFlush_send getBlock st script d n)
    = ESend (l_sock st) d n m e :: rest.
Proof.
  destruct script as [|r script]; [left; split; reflexivity | right].
  simpl. destruct (send r n) as [m e]. eexists m, e, _. reflexivity.
Qed.

Lemma QS_output_send_head script st d n :
  (trace (QS_output_send st script d n) = [] /\
   exit (QS_output_send st script d n) = StillSending) \/
  exists m e rest,
    trace (QS_output_send st script d n)
    = ESend (l_sock st) d n m e :: rest.
Proof.
  destruct script as [|r script]; [left; split; reflexivity | right].
  simpl. destruct (send r n) as [m e]. eexists m, e, _. reflexivity.
Qed.

Lemma retried_onFlush_send script st d n :
  retried (exit (onFlush_send getBlock st script d n)) (l_sock st) d n
    (ESleep c_timeout :: trace (onFlush_send getBlock st script d n)).
Proof.
  eexists. split; [reflexivity |].
  destruct (onFlush_send_head script st d n) as [(-> & ->) | (m & e & rest & ->)];
    [left; split; reflexivity | right; eauto].
Qed.

Lemma retried_QS_output_send script st d n :
  retried (exit (QS_output_send st script d n)) (l_sock st) d n
    (ESleep c_timeout :: trace (QS_output_send st script d n)).
Proof.
  eexists. split; [reflexivity |].
  destruct (QS_output_send_head script st d n) as [(-> & ->) | (m & e & rest & ->)];
    [left; split; reflexivity | right; eauto].
Qed.

Lemma onFlush_while_steps_from_send script :
  (forall st d n, 0 <= n < 65536 ->
     each_step (after_send (exit (onFlush_send getBlock st script d n)))
               (trace (onFlush_send getBlock st script d n))) ->
  forall st,
    each_step (after_send (exit (onFlush_while getBlock st script)))
              (trace (onFlush_while getBlock st script))
    /\ exists req blk rest,
         trace (onFlush_while getBlock st script)
         = ECritE :: EGetBlock req blk :: ECritX :: rest.
Proof.
  intros Hsend st.
  destruct (getBlock (priv_ st) (u16 QS_TX_CHUNK)) as [[[d n]|] rb] eqn:E.
  - rewrite (onFlush_while_block _ _ _ _ _ E). run_simpl.
    split; [| eauto].
    repeat (split; [exact I |]). apply Hsend, u16_range.
  - rewrite (onFlush_while_empty _ _ _ E). run_simpl.
    split; [| eauto]. simpl. tauto.
Qed.

Lemma onFlush_send_steps script :
  forall st d n, 0 <= n < 65536 ->
    each_step (after_send (exit (onFlush_send getBlock st script d n)))
              (trace (onFlush_send getBlock st script d n)).
Proof.
  induction script as [|r script IH]; intros st d n Hn; [exact I |].
  destruct (send_cases r n)
    as [(e & -> & Hwb) | [(e & -> & Hwb) | [(room & -> & Hr) | (room & -> & Hr)]]].
  - rewrite (onFlush_send_would_block _ _ _ _ _ Hwb). run_simpl.
    split; [| split; [exact I | apply IH, Hn]].
    split; [exact Hn | left].
    split; [reflexivity | split; [exact Hwb | apply retried_onFlush_send]].
  - rewrite (onFlush_send_hard_error _ _ _ _ _ Hwb). run_simpl.
    split; [| simpl; tauto].
    split; [exact Hn | right; left]. repeat split; assumption.
  - rewrite (onFlush_send_partial _ _ _ _ _ Hn Hr). run_simpl.
    split; [| split; [exact I | apply IH; lia]].
    split; [exact Hn | right; right; left].
    split; [lia | apply retried_onFlush_send].
  - rewrite (onFlush_send_full _ _ _ _ _ (proj1 Hn) Hr). run_simpl.
    destruct (onFlush_while_steps_from_send script IH st) as (Hs & req & blk & rest & Hh).
    split; [| exact Hs].
    split; [exact Hn | right; right; right].
    split; [reflexivity | right]. rewrite Hh. eauto.
Qed.

Lemma QS_output_send_steps script :
  forall st d n, 0 <= n < 65536 ->
    each_step (after_send (exit (QS_output_send st script d n)))
              (trace (QS_output_send st script d n)).
Proof.
  induction script as [|r script IH]; intros st d n Hn; [exact I |].
  destruct (send_cases r n)
    as [(e & -> & Hwb) | [(e & -> & Hwb) | [(room & -> & Hr) | (room & -> & Hr)]]].
  - rewrite (QS_output_send_would_block _ _ _ _ _ Hwb). run_simpl.
    split; [| split; [exact I | apply IH, Hn]].
    split; [exact Hn | left].
    split; [reflexivity | split; [exact Hwb | apply retried_QS_output_send]].
  - rewrite (QS_output_send_hard_error _ _ _ _ _ Hwb). run_simpl.
    split; [| simpl; tauto].
    split; [exact Hn | right; left]. repeat split; assumption.
  - rewrite (QS_output_send_partial _ _ _ _ _ Hn Hr). run_simpl.
    split; [| split; [exact I | apply IH; lia]].
    split; [exact Hn | right; right; left].
    split; [lia | apply retried_QS_output_send].
  - rewrite (QS_output_send_full _ _ _ _ _ (proj1 Hn) Hr). run_simpl.
    split; [| exact I].
    split; [exact Hn | right; right; right].
    split; [reflexivity | left; split; reflexivity].
Qed.

Lemma onFlush_steps st script :
  each_step (after_send (exit (onFlush getBlock st script)))
            (trace (onFlush getBlock st script)).
Proof.
  unfold onFlush. destruct (l_sock st =? INVALID_SOCKET).
  - simpl. tauto.
  - apply (onFlush_while_steps_from_send script (onFlush_send_steps script)).
Qed.

Lemma QS_output_steps st script :
  each_step (after_send (exit (QS_output getBlock st script)))
            (trace (QS_output getBlock st script)).
Proof.
  unfold QS_output. destruct (l_sock st =? INVALID_SOCKET).
  - simpl. tauto.
  - destruct (getBlock (priv_ st) (u16 QS_TX_CHUNK)) as [[[d n]|] rb].
    + run_simpl. repeat (split; [exact I |]).
      apply QS_output_send_steps, u16_range.
    + simpl. tauto.
Qed.

End PumpProofs.

Lemma each_step_at (P : Event -> list Event -> Prop) (t pre : list Event)
    (e : Event) (post : list Event) :
  each_step P t -> t = pre ++ e :: post -> P e post.
Proof.
  revert t. induction pre as [|e0 pre IH]; intros t Ht ->; simpl in Ht.
  - apply Ht.
  - apply (IH (pre ++ e :: post)); [apply Ht | reflexivity].
Qed.

(** Nothing follows a diagnostic, so none precedes another event. *)
Lemma no_stderr_before (x : Exit) (t pre : list Event) (e : Event)
    (post : list Event) :
  each_step (after_send x) t -> t = pre ++ e :: post ->
  filter is_stderr pre = [].
Proof.
  revert t. induction pre as [|e0 pre IH]; intros t Ht ->; [reflexivity |].
  simpl in Ht. destruct Ht as (H0 & Ht).
  specialize (IH _ Ht eq_refl).
  destruct e0; simpl; try exact IH.
  simpl in H0. destruct pre; discriminate H0.
Qed.

Section PumpFinish.

Context {RB : Type} (getBlock : RB -> Z -> option (Z * Z) * RB).
Implicit Types (st : State RB) (script : list SendResp).

(** *** Enough answers of the socket end the flush *)

Lemma work_nonneg rb blks : yields getBlock rb blks -> 0 <= work blks.
Proof.
  induction 1 as [| rb d n rb' blks _ _ IH]; simpl; [lia |].
  pose proof (u16_range n). lia.
Qed.

Lemma onFlush_while_finishes_from_send script :
  (forall st d n blks,
     0 <= n < 65536 -> yields getBlock (priv_ st) blks ->
     forallb transient script = true ->
     n + 1 + work blks <= progress script ->
     exit (onFlush_send getBlock st script d n) = Finished /\
     fetched (trace (onFlush_send getBlock st script d n)) = blks) ->
  forall st blks,
    yields getBlock (priv_ st) blks ->
    forallb transient script = true ->
    work blks <= progress script ->
    exit (onFlush_while getBlock st script) = Finished /\
    fetched (trace (onFlush_while getBlock st script)) = blks.
Proof.
  intros Hsend st blks Hy Htr Hw.
  inversion Hy as [rb rb' E | rb d n rb' blks' E Hy']; subst.
  - rewrite (onFlush_while_empty _ _ _ _ E). run_simpl. split; reflexivity.
  - rewrite (onFlush_while_block _ _ _ _ _ _ E). run_simpl.
    destruct (Hsend (set_priv st rb') d (u16 n) blks' (u16_range n) Hy' Htr)
      as (Hex & Hf); [simpl in Hw; lia |].
    rewrite Hf. split; [exact Hex | reflexivity].
Qed.

Lemma onFlush_send_finishes script :
  forall st d n blks,
    0 <= n < 65536 -> yields getBlock (priv_ st) blks ->
    forallb transient script = true ->
    n + 1 + work blks <= progress script ->
    exit (onFlush_send getBlock st script d n) = Finished /\
    fetched (trace (onFlush_send getBlock st script d n)) = blks.
Proof.
  induction script as [|r script IH]; intros st d n blks Hn Hy Htr Hw.
  - pose proof (work_nonneg _ _ Hy). simpl in Hw. lia.
  - pose proof (work_nonneg _ _ Hy) as Hwork.
    simpl in Htr. apply andb_prop in Htr as (Hr & Htr).
    destruct (send_cases r n)
      as [(e & -> & Hwb) | [(e & -> & Hwb) | [(room & -> & Hlt) | (room & -> & Hle)]]].
    + rewrite (onFlush_send_would_block _ _ _ _ _ _ Hwb). run_simpl.
      apply IH; try assumption; simpl in Hw; lia.
    + simpl in Hr. congruence.
    + rewrite (onFlush_send_partial _ _ _ _ _ _ Hn Hlt). run_simpl.
      apply IH; try assumption; simpl in Hw; destruct room; simpl in Hw; lia.
    + rewrite (onFlush_send_full _ _ _ _ _ _ (proj1 Hn) Hle). run_simpl.
      apply (onFlush_while_finishes_from_send script IH); try assumption;
        simpl in Hw; destruct room; simpl in Hw; lia.
Qed.

End PumpFinish.

Section PumpDelivery.

Context {RB : Type} (getBlock : RB -> Z -> option (Z * Z) * RB).
Implicit Types (st : State RB) (script : list SendResp).

Variable mem : Z -> Byte.byte.

(** *** Delivery in order *)

Lemma onFlush_while_delivery_from_send script :
  (forall st d n, 0 <= n < 65536 ->
     exists unsent,
       accepted mem (trace (onFlush_send getBlock st script d n)) ++ unsent
       = bytes_at mem d n
         ++ block_bytes mem (fetched (trace (onFlush_send getBlock st script d n)))
       /\ (exit (onFlush_send getBlock st script d n) = Finished -> unsent = [])) ->
  forall st,
    exists unsent,
      accepted mem (trace (onFlush_while getBlock st script)) ++ unsent
      = block_bytes mem (fetched (trace (onFlush_while getBlock st script)))
      /\ (exit (onFlush_while getBlock st script) = Finished -> unsent = []).
Proof.
  intros Hsend st.
  destruct (getBlock (priv_ st) (u16 QS_TX_CHUNK)) as [[[d n]|] rb] eqn:E.
  - rewrite (onFlush_while_block _ _ _ _ _ _ E). run_simpl.
    destruct (Hsend (set_priv st rb) d (u16 n) (u16_range n)) as (u & Hu & Hfin).
    exists u. split; [exact Hu | exact Hfin].
  - rewrite (onFlush_while_empty _ _ _ _ E). run_simpl.
    exists []. split; reflexivity.
Qed.

Lemma onFlush_send_delivery script :
  forall st d n, 0 <= n < 65536 ->
    exists unsent,
      accepted mem (trace (onFlush_send getBlock st script d n)) ++ unsent
      = bytes_at mem d n
        ++ block_bytes mem (fetched (trace (onFlush_send getBlock st script d n)))
      /\ (exit (onFlush_send getBlock st script d n) = Finished -> unsent = []).
Proof.
  induction script as [|r script IH]; intros st d n Hn.
  - simpl. exists (bytes_at mem d n). rewrite app_nil_r.
    split; [reflexivity | discriminate].
  - destruct (send_cases r n)
      as [(e & -> & Hwb) | [(e & -> & Hwb) | [(room & -> & Hr) | (room & -> & Hr)]]].
    + rewrite (onFlush_send_would_block _ _ _ _ _ _ Hwb). run_simpl.
      apply IH, Hn.
    + rewrite (onFlush_send_hard_error _ _ _ _ _ _ Hwb). run_simpl.
      exists (bytes_at mem d n). rewrite app_nil_r.
      split; [reflexivity | discriminate].
    + rewrite (onFlush_send_partial _ _ _ _ _ _ Hn Hr). run_simpl.
      assert ((Z.of_nat room =? SOCKET_ERROR) = false) as ->
        by (apply Z.eqb_neq; unfold SOCKET_ERROR; lia).
      destruct (IH st (d + Z.of_nat room) (n - Z.of_nat room)) as (u & Hu & Hfin);
        [lia |].
      exists u. split; [| exact Hfin].
      rewrite <- app_assoc, Hu, app_assoc.
      rewrite <- (bytes_at_split mem d (Z.of_nat room) n) by lia. reflexivity.
    + rewrite (onFlush_send_full _ _ _ _ _ _ (proj1 Hn) Hr). run_simpl.
      assert ((n =? SOCKET_ERROR) = false) as ->
        by (apply Z.eqb_neq; unfold SOCKET_ERROR; lia).
      destruct (onFlush_while_delivery_from_send script IH st) as (u & Hu & Hfin).
      exists u. split; [| exact Hfin].
      rewrite <- app_assoc, Hu. reflexivity.
Qed.

Lemma onFlush_while_delivery st script :
  exists unsent,
    accepted mem (trace (onFlush_while getBlock st script)) ++ unsent
    = block_bytes mem (fetched (trace (onFlush_while getBlock st script)))
    /\ (exit (onFlush_while getBlock st script) = Finished -> unsent = []).
Proof.
  apply onFlush_while_delivery_from_send. intros. apply onFlush_send_delivery.
  assumption.
Qed.

(** C1: in every flush, whatever the socket answers, the bytes the socket
    took, in the order it took them, are the bytes of the blocks
    [getBlock] returned, in the order it returned them, up to a tail not
    yet sent: no byte is dropped in between, none is sent twice, none out
    of order.  When the flush runs to its end that tail is empty: the
    bytes taken are exactly the blocks returned. *)
Theorem onFlush_delivers_blocks_in_order st script :
  (exists unsent,
     accepted mem (trace (onFlush getBlock st script)) ++ unsent
     = block_bytes mem (fetched (trace (onFlush getBlock st script)))) /\
  (exit (onFlush getBlock st script) = Finished ->
   accepted mem (trace (onFlush getBlock st script))
   = block_bytes mem (fetched (trace (onFlush getBlock st script)))).
Proof.
  unfold onFlush. destruct (l_sock st =? INVALID_SOCKET).
  - simpl. split; [exists []; reflexivity | reflexivity].
  - destruct (onFlush_while_delivery st script) as (u & Hu & Hfin).
    split; [exists u; exact Hu |].
    intros Hex. rewrite (Hfin Hex), app_nil_r in Hu. exact Hu.
Qed.

(** A flush of a buffer that holds the blocks [blks], against a socket
    that never fails hard and takes a byte often enough, returns after
    the socket has taken exactly the bytes of [blks]. *)
Lemma onFlush_finishes st script blks :
  l_sock st <> INVALID_SOCKET ->
  yields getBlock (priv_ st) blks ->
  forallb transient script = true ->
  work blks <= progress script ->
  exit (onFlush getBlock st script) = Finished /\
  fetched (trace (onFlush getBlock st script)) = blks /\
  accepted mem (trace (onFlush getBlock st script)) = block_bytes mem blks.
Proof.
  intros Hs Hy Htr Hw.
  unfold onFlush. apply Z.eqb_neq in Hs. rewrite Hs.
  destruct (onFlush_while_delivery st script) as (u & Hu & Hfin).
  destruct (onFlush_while_finishes_from_send getBlock script
              (onFlush_send_finishes getBlock script)
              st blks Hy Htr Hw) as (Hex & Hf).
  rewrite (Hfin Hex), app_nil_r, Hf in Hu.
  repeat split; assumption.
Qed.

(** *** A block is fetched only when all earlier ones are sent *)

Lemma onFlush_while_fetch_point_from_send script :
  (forall st d n pre req blk post,
     0 <= n < 65536 ->
     trace (onFlush_send getBlock st script d n) = pre ++ EGetBlock req blk :: post ->
     accepted mem pre = bytes_at mem d n ++ block_bytes mem (fetched pre)) ->
  forall st pre req blk post,
    trace (onFlush_while getBlock st script) = pre ++ EGetBlock req blk :: post ->
    accepted mem pre = block_bytes mem (fetched pre).
Proof.
  intros Hsend st pre req blk post.
  destruct (getBlock (priv_ st) (u16 QS_TX_CHUNK)) as [[[d n]|] rb] eqn:E.
  - rewrite (onFlush_while_block _ _ _ _ _ _ E). run_simpl. intros H.
    peel H. peel H; [reflexivity |]. peel H.
    run_simpl. apply (Hsend _ _ _ _ _ _ _ (u16_range n) H).
  - rewrite (onFlush_while_empty _ _ _ _ E). run_simpl. intros H.
    peel H. peel H; [reflexivity |]. peel H. peel H.
Qed.

Lemma onFlush_send_fetch_point script :
  forall st d n pre req blk post,
    0 <= n < 65536 ->
    trace (onFlush_send getBlock st script d n) = pre ++ EGetBlock req blk :: post ->
    accepted mem pre = bytes_at mem d n ++ block_bytes mem (fetched pre).
Proof.
  induction script as [|r script IH]; intros st d n pre req blk post Hn H.
  - simpl in H. peel H.
  - destruct (send_cases r n)
      as [(e & -> & Hwb) | [(e & -> & Hwb) | [(room & -> & Hr) | (room & -> & Hr)]]].
    + rewrite (onFlush_send_would_block _ _ _ _ _ _ Hwb) in H. run_simpl.
      peel H. peel H. run_simpl. apply (IH _ _ _ _ _ _ _ Hn H).
    + rewrite (onFlush_send_hard_error _ _ _ _ _ _ Hwb) in H. run_simpl.
      peel H. peel H. peel H.
    + rewrite (onFlush_send_partial _ _ _ _ _ _ Hn Hr) in H. run_simpl.
      peel H. peel H. run_simpl.
      assert ((Z.of_nat room =? SOCKET_ERROR) = false) as ->
        by (apply Z.eqb_neq; unfold SOCKET_ERROR; lia).
      assert (Hn' : 0 <= n - Z.of_nat room < 65536) by lia.
      rewrite (IH _ _ _ _ _ _ _ Hn' H), app_assoc.
      rewrite <- (bytes_at_split mem d (Z.of_nat room) n) by lia. reflexivity.
    + rewrite (onFlush_send_full _ _ _ _ _ _ (proj1 Hn) Hr) in H. run_simpl.
      peel H. run_simpl.
      assert ((n =? SOCKET_ERROR) = false) as ->
        by (apply Z.eqb_neq; unfold SOCKET_ERROR; lia).
      rewrite (onFlush_while_fetch_point_from_send script IH _ _ _ _ _ H).
      reflexivity.
Qed.

Lemma onFlush_fetch_point st script pre req blk post :
  trace (onFlush getBlock st script) = pre ++ EGetBlock req blk :: post ->
  accepted mem pre = block_bytes mem (fetched pre).
Proof.
  unfold onFlush. destruct (l_sock st =? INVALID_SOCKET).
  - run_simpl. intros H. peel H. peel H.
  - apply (onFlush_while_fetch_point_from_send script (onFlush_send_fetch_point script)).
Qed.

Lemma QS_output_send_no_fetch script :
  forall st d n pre req blk post,
    trace (QS_output_send st script d n) <> pre ++ EGetBlock req blk :: post.
Proof.
  induction script as [|r script IH]; intros st d n pre req blk post H.
  - simpl in H. peel H.
  - simpl in H. destruct (send r n) as [m e].
    destruct (m =? SOCKET_ERROR);
      [destruct ((e =? EWOULDBLOCK) || (e =? EAGAIN)) | destruct (m <? n)];
      run_simpl; peel H; try peel H; try peel H; eapply IH; eassumption.
Qed.

Lemma QS_output_fetch_point st script pre req blk post :
  trace (QS_output getBlock st script) = pre ++ EGetBlock req blk :: post ->
  accepted mem pre = block_bytes mem (fetched pre).
Proof.
  unfold QS_output. destruct (l_sock st =? INVALID_SOCKET).
  - run_simpl. intros H. peel H. peel H.
  - destruct (getBlock (priv_ st) (u16 QS_TX_CHUNK)) as [[[d n]|] rb];
      run_simpl; intros H.
    + peel H. peel H; [reflexivity |]. peel H.
      exfalso. eapply QS_output_send_no_fetch. eassumption.
    + peel H. peel H; [reflexivity |]. peel H. peel H.
Qed.

End PumpDelivery.

Section PumpUnroll.

Context {RB : Type} (getBlock : RB -> Z -> option (Z * Z) * RB).
Implicit Types (st : State RB) (script : list SendResp).

(** *** The calls leave the socket alone *)

Lemma onFlush_send_frame script :
  forall st d n,
    l_sock (final (onFlush_send getBlock st script d n)) = l_sock st /\
    rxPriv_ (final (onFlush_send getBlock st script d n)) = rxPriv_ st /\
    filter is_close (trace (onFlush_send getBlock st script d n)) = [] /\
    filter is_exit (trace (onFlush_send getBlock st script d n)) = [].
Proof.
  induction script as [|r script IH]; intros st d n; [simpl; tauto |].
  simpl. destruct (send r n) as [m e].
  destruct (m =? SOCKET_ERROR);
    [destruct ((e =? EWOULDBLOCK) || (e =? EAGAIN)) | destruct (m <? n)];
    try (simpl; tauto); try apply IH.
  destruct (getBlock (priv_ st) (u16 QS_TX_CHUNK)) as [[[d' n']|] rb];
    [| simpl; tauto].
  apply (IH (set_priv st rb)).
Qed.

Lemma onFlush_frame st script :
  l_sock (final (onFlush getBlock st script)) = l_sock st /\
  rxPriv_ (final (onFlush getBlock st script)) = rxPriv_ st /\
  filter is_close (trace (onFlush getBlock st script)) = [] /\
  filter is_exit (trace (onFlush getBlock st script)) = [].
Proof.
  unfold onFlush, onFlush_while.
  destruct (l_sock st =? INVALID_SOCKET); [simpl; tauto |].
  destruct (getBlock (priv_ st) (u16 QS_TX_CHUNK)) as [[[d n]|] rb];
    [| simpl; tauto].
  apply (onFlush_send_frame script (set_priv st rb)).
Qed.

Lemma QS_output_send_frame script :
  forall st d n,
    final (QS_output_send st script d n) = st /\
    filter is_close (trace (QS_output_send st script d n)) = [] /\
    filter is_exit (trace (QS_output_send st script d n)) = [] /\
    filter is_getBlock (trace (QS_output_send st script d n)) = [].
Proof.
  induction script as [|r script IH]; intros st d n; [simpl; tauto |].
  simpl. destruct (send r n) as [m e].
  destruct (m =? SOCKET_ERROR);
    [destruct ((e =? EWOULDBLOCK) || (e =? EAGAIN)) | destruct (m <? n)];
    try (simpl; tauto); apply IH.
Qed.

Lemma QS_output_frame st script :
  l_sock (final (QS_output getBlock st script)) = l_sock st /\
  rxPriv_ (final (QS_output getBlock st script)) = rxPriv_ st /\
  filter is_close (trace (QS_output getBlock st script)) = [] /\
  filter is_exit (trace (QS_output getBlock st script)) = [].
Proof.
  unfold QS_output.
  destruct (l_sock st =? INVALID_SOCKET); [simpl; tauto |].
  destruct (getBlock (priv_ st) (u16 QS_TX_CHUNK)) as [[[d n]|] rb];
    [| simpl; tauto].
  destruct (QS_output_send_frame script (set_priv st rb) d (u16 n))
    as (Hf & Hc & Hx & _).
  simpl. rewrite Hf. simpl. tauto.
Qed.

(** *** Would-block is not reported *)

Lemma onFlush_send_transient script :
  forall st d n,
    0 <= n < 65536 ->
    forallb transient script = true ->
    exit (onFlush_send getBlock st script d n) <> SendFailed /\
    filter is_send_error (trace (onFlush_send getBlock st script d n)) = [].
Proof.
  induction script as [|r script IH]; intros st d n Hn Htr;
    [simpl; split; [discriminate | reflexivity] |].
  simpl in Htr. apply andb_prop in Htr as (Hr & Htr).
  destruct (send_cases r n)
    as [(e & -> & Hwb) | [(e & -> & Hwb) | [(room & -> & Hlt) | (room & -> & Hle)]]].
  - rewrite (onFlush_send_would_block _ _ _ _ _ _ Hwb). simpl.
    apply (IH _ _ _ Hn Htr).
  - simpl in Hr. congruence.
  - rewrite (onFlush_send_partial _ _ _ _ _ _ Hn Hlt). simpl.
    apply IH; [lia | exact Htr].
  - rewrite (onFlush_send_full _ _ _ _ _ _ (proj1 Hn) Hle).
    unfold onFlush_while.
    destruct (getBlock (priv_ st) (u16 QS_TX_CHUNK)) as [[[d' n']|] rb]; simpl.
    + apply (IH _ _ _ (u16_range n') Htr).
    + split; [discriminate | reflexivity].
Qed.

Lemma QS_output_send_transient script :
  forall st d n,
    0 <= n < 65536 ->
    forallb transient script = true ->
    exit (QS_output_send st script d n) <> SendFailed /\
    filter is_send_error (trace (QS_output_send st script d n)) = [].
Proof.
  induction script as [|r script IH]; intros st d n Hn Htr;
    [simpl; split; [discriminate | reflexivity] |].
  simpl in Htr. apply andb_prop in Htr as (Hr & Htr).
  destruct (send_cases r n)
    as [(e & -> & Hwb) | [(e & -> & Hwb) | [(room & -> & Hlt) | (room & -> & Hle)]]].
  - rewrite (QS_output_send_would_block _ _ _ _ _ Hwb). simpl.
    apply (IH _ _ _ Hn Htr).
  - simpl in Hr. congruence.
  - rewrite (QS_output_send_partial _ _ _ _ _ Hn Hlt). simpl.
    apply IH; [lia | exact Htr].
  - rewrite (QS_output_send_full _ _ _ _ _ (proj1 Hn) Hle). simpl.
    split; [discriminate | reflexivity].
Qed.

(** However often the socket answers would-block, the loop comes back
    to the same [send]. *)
Lemma onFlush_send_would_block_streak (k : nat) (e : Z) script st d n :
  would_block e = true ->
  trace (onFlush_send getBlock st (repeat (Fails e) k ++ script) d n)
  = concat (repeat [ESend (l_sock st) d n SOCKET_ERROR e; ESleep c_timeout] k)
    ++ trace (onFlush_send getBlock st script d n) /\
  exit (onFlush_send getBlock st (repeat (Fails e) k ++ script) d n)
  = exit (onFlush_send getBlock st script d n).
Proof.
  intros Hwb. induction k as [|k (IHt & IHx)]; [split; reflexivity |].
  cbn [repeat app].
  rewrite (onFlush_send_would_block _ _ _ _ _ _ Hwb).
  cbn [trace exit emit concat]. rewrite IHt, IHx. split; reflexivity.
Qed.

(** *** [QS::onFlush] is [QS_output] repeated *)

Lemma onFlush_send_unroll script :
  forall st d n,
    onFlush_send getBlock st script d n
    = match exit (QS_output_send st script d n) with
      | Finished =>
          then_run (QS_output_send st script d n)
            (onFlush_while getBlock st (unread (QS_output_send st script d n)))
      | _ => QS_output_send st script d n
      end.
Proof.
  induction script as [|r script IH]; intros st d n; [reflexivity |].
  simpl. destruct (send r n) as [m e].
  destruct (m =? SOCKET_ERROR);
    [destruct ((e =? EWOULDBLOCK) || (e =? EAGAIN)) | destruct (m <? n)];
    try reflexivity;
    cbn [exit emit]; rewrite IH;
    destruct (exit (QS_output_send st script _ _)); reflexivity.
Qed.

(** *** Closing *)

(** [QS::onCleanup] closes the descriptor once; called again it does
    nothing. *)
Lemma onCleanup_twice st :
  l_sock (snd (onCleanup st)) = INVALID_SOCKET /\
  onCleanup (snd (onCleanup st)) = ([], snd (onCleanup st)).
Proof.
  unfold onCleanup. destruct (l_sock st =? INVALID_SOCKET) eqn:E; simpl.
  - rewrite E. simpl. apply Z.eqb_eq in E. split; [exact E | reflexivity].
  - split; reflexivity.
Qed.

End PumpUnroll.

(** ** The claims about the transmit and receive paths *)

Section PumpClaims.

Context {RB : Type} (getBlock : RB -> Z -> option (Z * Z) * RB).
Implicit Types (st : State RB) (script : list SendResp).

(** C2: in the send loop of [QS::onFlush] and in that of [QS_output], when
    [send] on [len] bytes at [data] takes [m] bytes with [0 < m < len],
    the loop sleeps [c_timeout] and its next call of [send] is on the
    [len - m] bytes at [data + m]; a trace that ends with the sleep
    belongs to a call that is still in its loop. *)
Theorem partial_send_resumes_at_offset st script pre s data len m e post :
  0 < m < len ->
  (trace (onFlush getBlock st script) = pre ++ ESend s data len m e :: post ->
   retried (exit (onFlush getBlock st script)) s (data + m) (len - m) post) /\
  (trace (QS_output getBlock st script) = pre ++ ESend s data len m e :: post ->
   retried (exit (QS_output getBlock st script)) s (data + m) (len - m) post).
Proof.
  intros Hm. split; intros Ht.
  - pose proof (each_step_at _ _ _ _ _ (onFlush_steps getBlock st script) Ht) as H.
    destruct H as (_ & [(E & _) | [(E & _) | [(_ & H) | (E & _)]]]);
      unfold SOCKET_ERROR in *; try lia. exact H.
  - pose proof (each_step_at _ _ _ _ _ (QS_output_steps getBlock st script) Ht) as H.
    destruct H as (_ & [(E & _) | [(E & _) | [(_ & H) | (E & _)]]]);
      unfold SOCKET_ERROR in *; try lia. exact H.
Qed.

(** C3: when [send] fails with [EWOULDBLOCK] or [EAGAIN], in
    [QS::onFlush] and in [QS_output] alike, the loop sleeps [c_timeout]
    and calls [send] again with the same address and the same length, and
    a trace that ends with the sleep belongs to a call that has not
    returned; whenever [getBlock] is called, the socket has taken every
    byte of every block fetched before; and against a socket whose only
    failures are would-block no send error is reported and the call does
    not end as failed. *)
Theorem would_block_retries_same_remainder (mem : Z -> Byte.byte) st script :
  (forall pre s data len e post,
     would_block e = true ->
     (trace (onFlush getBlock st script)
      = pre ++ ESend s data len SOCKET_ERROR e :: post ->
      retried (exit (onFlush getBlock st script)) s data len post) /\
     (trace (QS_output getBlock st script)
      = pre ++ ESend s data len SOCKET_ERROR e :: post ->
      retried (exit (QS_output getBlock st script)) s data len post)) /\
  (forall pre req blk post,
     (trace (onFlush getBlock st script) = pre ++ EGetBlock req blk :: post ->
      accepted mem pre = block_bytes mem (fetched pre)) /\
     (trace (QS_output getBlock st script) = pre ++ EGetBlock req blk :: post ->
      accepted mem pre = block_bytes mem (fetched pre))) /\
  (forallb transient script = true ->
   exit (onFlush getBlock st script) <> SendFailed /\
   filter is_send_error (trace (onFlush getBlock st script)) = [] /\
   exit (QS_output getBlock st script) <> SendFailed /\
   filter is_send_error (trace (QS_output getBlock st script)) = []).
Proof.
  split; [| split].
  - intros pre s data len e post Hwb. split; intros Ht.
    + pose proof (each_step_at _ _ _ _ _ (onFlush_steps getBlock st script) Ht) as H.
      destruct H as ((Hl & _) & [(_ & _ & H) | [(_ & E & _) | [(E & _) | (E & _)]]]);
        unfold SOCKET_ERROR in *; try lia; [exact H | congruence].
    + pose proof (each_step_at _ _ _ _ _ (QS_output_steps getBlock st script) Ht) as H.
      destruct H as ((Hl & _) & [(_ & _ & H) | [(_ & E & _) | [(E & _) | (E & _)]]]);
        unfold SOCKET_ERROR in *; try lia; [exact H | congruence].
  - intros pre req blk post. split.
    + apply onFlush_fetch_point.
    + apply QS_output_fetch_point.
  - intros Htr. unfold onFlush, onFlush_while, QS_output.
    destruct (l_sock st =? INVALID_SOCKET).
    { simpl. repeat split; discriminate. }
    destruct (getBlock (priv_ st) (u16 QS_TX_CHUNK)) as [[[d n]|] rb]; simpl.
    + destruct (onFlush_send_transient getBlock script (set_priv st rb) d (u16 n)
                  (u16_range n) Htr) as (H1 & H2).
      destruct (QS_output_send_transient script (set_priv st rb) d (u16 n)
                  (u16_range n) Htr) as (H3 & H4).
      repeat split; assumption.
    + repeat split; discriminate.
Qed.

(** C6: when a call of [send] in [QS::onFlush] fails with an error other
    than would-block, the only thing the flush still does is print the
    send-error diagnostic: it sends nothing more and fetches nothing
    more, it returns, the diagnostic is the only one of the whole flush,
    [l_sock] is what it was and no descriptor was closed. *)
Theorem hard_send_error_aborts_flush st script pre s data len e post :
  would_block e = false ->
  trace (onFlush getBlock st script)
  = pre ++ ESend s data len SOCKET_ERROR e :: post ->
  post = [EStderr (DiagSendError e)] /\
  exit (onFlush getBlock st script) = SendFailed /\
  filter is_stderr (trace (onFlush getBlock st script))
  = [EStderr (DiagSendError e)] /\
  l_sock (final (onFlush getBlock st script)) = l_sock st /\
  filter is_close (trace (onFlush getBlock st script)) = [].
Proof.
  intros Hwb Ht.
  pose proof (onFlush_steps getBlock st script) as Hsteps.
  pose proof (each_step_at _ _ _ _ _ Hsteps Ht) as H.
  pose proof (no_stderr_before _ _ _ _ _ Hsteps Ht) as Hpre.
  destruct (onFlush_frame getBlock st script) as (Hs & _ & Hc & _).
  destruct H as ((Hl & _) & [(_ & E & _) | [(_ & _ & Hp & Hx) | [(E & _) | (E & _)]]]);
    unfold SOCKET_ERROR in *; try lia; try congruence.
  subst post. repeat split; try assumption.
  rewrite Ht, filter_app, Hpre. reflexivity.
Qed.

(** C7: with [l_sock == INVALID_SOCKET], [QS::onFlush] and [QS_output]
    print the invalid-socket diagnostic and return: no other call is
    made, the state is what it was and no answer of the socket is used.
    [QS_rx_input] has no such test: it calls [recv] on the invalid
    descriptor, which fails, prints nothing, and leaves the state as it
    was. *)
Theorem use_before_connect st script (resp : RecvResp) :
  l_sock st = INVALID_SOCKET ->
  onFlush getBlock st script
  = {| trace := [EStderr DiagInvalidSocket]; exit := NoSocket;
       final := st; unread := script |} /\
  QS_output getBlock st script
  = {| trace := [EStderr DiagInvalidSocket]; exit := NoSocket;
       final := st; unread := script |} /\
  QS_rx_input st resp
  = {| rx_trace := [ERecv INVALID_SOCKET (rx_end (rxPriv_ st)) (-1)];
       rx_final := st |}.
Proof.
  intros Hs. unfold onFlush, QS_output, QS_rx_input, recv.
  rewrite Hs. simpl. repeat split.
Qed.

(** *** [QS_output] and [QS::onFlush] *)

Lemma QS_output_empty st script rb :
  l_sock st <> INVALID_SOCKET ->
  getBlock (priv_ st) (u16 QS_TX_CHUNK) = (None, rb) ->
  QS_output getBlock st script
  = {| trace := [ECritE; EGetBlock QS_TX_CHUNK None; ECritX];
       exit := Finished; final := set_priv st rb; unread := script |}.
Proof.
  intros Hs E. unfold QS_output. apply Z.eqb_neq in Hs. rewrite Hs, E.
  reflexivity.
Qed.

Lemma onFlush_empty st script rb :
  l_sock st <> INVALID_SOCKET ->
  getBlock (priv_ st) (u16 QS_TX_CHUNK) = (None, rb) ->
  onFlush getBlock st script
  = {| trace := [ECritE; EGetBlock QS_TX_CHUNK None; ECritX];
       exit := Finished; final := set_priv st rb; unread := script |}.
Proof.
  intros Hs E. unfold onFlush, onFlush_while. apply Z.eqb_neq in Hs.
  rewrite Hs, E. reflexivity.
Qed.

(** [QS::onFlush] does what [QS_output] does and, when that has sent a
    block completely, starts over with the state and the socket as
    [QS_output] left them. *)
Lemma onFlush_unroll st script :
  onFlush getBlock st script
  = match exit (QS_output getBlock st script),
          fetched (trace (QS_output getBlock st script)) with
    | Finished, _ :: _ =>
        then_run (QS_output getBlock st script)
          (onFlush getBlock (final (QS_output getBlock st script))
             (unread (QS_output getBlock st script)))
    | _, _ => QS_output getBlock st script
    end.
Proof.
  unfold onFlush at 1. unfold QS_output, onFlush_while.
  destruct (l_sock st =? INVALID_SOCKET) eqn:Hs; [reflexivity |].
  destruct (getBlock (priv_ st) (u16 QS_TX_CHUNK)) as [[[d n]|] rb];
    [| reflexivity].
  rewrite onFlush_send_unroll.
  destruct (QS_output_send_frame script (set_priv st rb) d (u16 n)) as (Hf & _).
  cbn [exit emit trace fetched final unread].
  destruct (exit (QS_output_send (set_priv st rb) script d (u16 n))); try reflexivity.
  rewrite Hf. unfold onFlush. cbn [l_sock set_priv]. rewrite Hs. reflexivity.
Qed.

(** C8: [QS_output] is one turn of the loop of [QS::onFlush].  It asks
    [getBlock] once, for [QS_TX_CHUNK] bytes; what [QS::onFlush] does is
    what [QS_output] does, followed, when a block was fetched and sent
    completely, by [QS::onFlush] again; when the buffer returns no block
    [QS_output] sends nothing, uses no answer of the socket, and leaves
    the critical section with the state as [getBlock] left it; and when
    the buffer holds exactly one block both make the same calls of
    [send] and end alike. *)
Theorem QS_output_is_one_turn_of_onFlush st script :
  l_sock st <> INVALID_SOCKET ->
  (exists blk,
     filter is_getBlock (trace (QS_output getBlock st script))
     = [EGetBlock QS_TX_CHUNK blk]) /\
  onFlush getBlock st script
  = match exit (QS_output getBlock st script),
          fetched (trace (QS_output getBlock st script)) with
    | Finished, _ :: _ =>
        then_run (QS_output getBlock st script)
          (onFlush getBlock (final (QS_output getBlock st script))
             (unread (QS_output getBlock st script)))
    | _, _ => QS_output getBlock st script
    end /\
  (forall rb,
     getBlock (priv_ st) (u16 QS_TX_CHUNK) = (None, rb) ->
     QS_output getBlock st script
     = {| trace := [ECritE; EGetBlock QS_TX_CHUNK None; ECritX];
          exit := Finished; final := set_priv st rb; unread := script |}) /\
  (forall blk rb rb',
     getBlock (priv_ st) (u16 QS_TX_CHUNK) = (Some blk, rb) ->
     getBlock rb (u16 QS_TX_CHUNK) = (None, rb') ->
     sends (trace (onFlush getBlock st script))
     = sends (trace (QS_output getBlock st script)) /\
     exit (onFlush getBlock st script) = exit (QS_output getBlock st script) /\
     unread (onFlush getBlock st script)
     = unread (QS_output getBlock st script)).
Proof.
  intros Hs. split; [| split; [apply onFlush_unroll | split]].
  - unfold QS_output. apply Z.eqb_neq in Hs. rewrite Hs.
    destruct (getBlock (priv_ st) (u16 QS_TX_CHUNK)) as [[[d n]|] rb].
    + destruct (QS_output_send_frame script (set_priv st rb) d (u16 n))
        as (_ & _ & _ & Hg).
      exists (Some (d, u16 n)).
      change (EGetBlock QS_TX_CHUNK (Some (d, u16 n))
              :: filter is_getBlock
                   (trace (QS_output_send (set_priv st rb) script d (u16 n)))
              = [EGetBlock QS_TX_CHUNK (Some (d, u16 n))]).
      rewrite Hg. reflexivity.
    + eexists. reflexivity.
  - intros rb E. apply QS_output_empty; assumption.
  - intros [d n] rb rb' E E'.
    rewrite onFlush_unroll.
    assert (Hq : QS_output getBlock st script
                 = emit ECritE (emit (EGetBlock (u16 QS_TX_CHUNK) (Some (d, u16 n)))
                     (emit ECritX (QS_output_send (set_priv st rb) script d (u16 n))))).
    { unfold QS_output. apply Z.eqb_neq in Hs. rewrite Hs, E. reflexivity. }
    destruct (QS_output_send_frame script (set_priv st rb) d (u16 n)) as (Hf & _).
    rewrite Hq. cbn [exit emit trace fetched final unread].
    destruct (exit (QS_output_send (set_priv st rb) script d (u16 n))) eqn:Hx;
      try (cbn [exit emit trace unread]; repeat split;
           first [reflexivity | exact Hx]).
    rewrite Hf.
    rewrite (onFlush_empty (set_priv st rb) _ rb') by assumption.
    unfold then_run. cbn [trace exit unread emit].
    split; [| split; reflexivity].
    unfold sends. rewrite filter_app. simpl. rewrite app_nil_r. reflexivity.
Qed.

End PumpClaims.

(** ** The claims on a concrete run *)

Lemma onFlush_delivers_blocks_in_order_witness :
  let r := onFlush ring_getBlock demo_state
             [Fails EAGAIN; Accepts 1; Accepts 0; Accepts 100; Accepts 2;
              Fails EWOULDBLOCK; Accepts 5] in
  exit r = Finished /\
  fetched (trace r) = [(12, 4); (0, 3)] /\
  accepted demo_mem (trace r)
  = [Byte.x0c; Byte.x0d; Byte.x0e; Byte.x0f; Byte.x00; Byte.x01; Byte.x02].
Proof.
  intros r.
  assert (Hx : exit r = Finished) by reflexivity.
  split; [exact Hx |]. split; [reflexivity |].
  etransitivity;
    [ exact (proj2 (onFlush_delivers_blocks_in_order ring_getBlock demo_mem demo_state
                      [Fails EAGAIN; Accepts 1; Accepts 0; Accepts 100; Accepts 2;
                       Fails EWOULDBLOCK; Accepts 5]) Hx)
    | reflexivity ].
Defined.

Lemma partial_send_resumes_at_offset_witness :
  0 < 1 < 4 /\
  retried (exit (onFlush ring_getBlock demo_state [Accepts 1; Accepts 100]))
    5 (12 + 1) (4 - 1)
    [ESleep c_timeout; ESend 5 13 3 3 0;
     ECritE; EGetBlock QS_TX_CHUNK (Some (0, 3)); ECritX] /\
  retried (exit (QS_output ring_getBlock demo_state [Accepts 1; Accepts 100]))
    5 (12 + 1) (4 - 1)
    [ESleep c_timeout; ESend 5 13 3 3 0].
Proof.
  assert (H : 0 < 1 < 4) by lia.
  split; [exact H |]. split.
  - apply (proj1 (partial_send_resumes_at_offset ring_getBlock demo_state
                    [Accepts 1; Accepts 100]
                    [ECritE; EGetBlock QS_TX_CHUNK (Some (12, 4)); ECritX]
                    5 12 4 1 0 _ H)).
    reflexivity.
  - apply (proj2 (partial_send_resumes_at_offset ring_getBlock demo_state
                    [Accepts 1; Accepts 100]
                    [ECritE; EGetBlock QS_TX_CHUNK (Some (12, 4)); ECritX]
                    5 12 4 1 0 _ H)).
    reflexivity.
Defined.

Lemma would_block_retries_same_remainder_witness :
  would_block EAGAIN = true /\
  retried (exit (onFlush ring_getBlock demo_state [Fails EAGAIN; Accepts 100]))
    5 12 4
    [ESleep c_timeout; ESend 5 12 4 4 0;
     ECritE; EGetBlock QS_TX_CHUNK (Some (0, 3)); ECritX] /\
  retried (exit (QS_output ring_getBlock demo_state [Fails EAGAIN]))
    5 12 4 [ESleep c_timeout] /\
  accepted demo_mem
    [ECritE; EGetBlock QS_TX_CHUNK (Some (12, 4)); ECritX;
     ESend 5 12 4 SOCKET_ERROR EAGAIN; ESleep c_timeout; ESend 5 12 4 4 0; ECritE]
  = block_bytes demo_mem [(12, 4)] /\
  filter is_send_error
    (trace (onFlush ring_getBlock demo_state [Fails EAGAIN; Accepts 100])) = [].
Proof.
  assert (Hwb : would_block EAGAIN = true) by reflexivity.
  split; [exact Hwb |].
  destruct (would_block_retries_same_remainder ring_getBlock demo_mem demo_state
              [Fails EAGAIN; Accepts 100]) as (Ha & Hb & Hc).
  destruct (would_block_retries_same_remainder ring_getBlock demo_mem demo_state
              [Fails EAGAIN]) as (Ha' & _ & _).
  split; [| split; [| split]].
  - apply (proj1 (Ha [ECritE; EGetBlock QS_TX_CHUNK (Some (12, 4)); ECritX]
                     5 12 4 EAGAIN _ Hwb)).
    reflexivity.
  - apply (proj2 (Ha' [ECritE; EGetBlock QS_TX_CHUNK (Some (12, 4)); ECritX]
                      5 12 4 EAGAIN _ Hwb)).
    reflexivity.
  - exact (proj1 (Hb [ECritE; EGetBlock QS_TX_CHUNK (Some (12, 4)); ECritX;
                       ESend 5 12 4 SOCKET_ERROR EAGAIN; ESleep c_timeout;
                       ESend 5 12 4 4 0; ECritE]
                      QS_TX_CHUNK (Some (0, 3)) [ECritX]) eq_refl).
  - apply (Hc eq_refl).
Defined.

Lemma hard_send_error_aborts_flush_witness :
  would_block 32 = false /\
  exit (onFlush ring_getBlock demo_state [Accepts 1; Fails 32; Accepts 5])
  = SendFailed /\
  filter is_stderr
    (trace (onFlush ring_getBlock demo_state [Accepts 1; Fails 32; Accepts 5]))
  = [EStderr (DiagSendError 32)] /\
  l_sock (final (onFlush ring_getBlock demo_state [Accepts 1; Fails 32; Accepts 5]))
  = 5.
Proof.
  assert (Hwb : would_block 32 = false) by reflexivity.
  split; [exact Hwb |].
  destruct (hard_send_error_aborts_flush ring_getBlock demo_state
              [Accepts 1; Fails 32; Accepts 5]
              [ECritE; EGetBlock QS_TX_CHUNK (Some (12, 4)); ECritX;
               ESend 5 12 4 1 0; ESleep c_timeout]
              5 13 3 32 [EStderr (DiagSendError 32)] Hwb eq_refl)
    as (_ & Hx & Hd & Hs & _).
  split; [exact Hx |]. split; [exact Hd | exact Hs].
Defined.

Lemma use_before_connect_witness :
  l_sock demo_unconnected = INVALID_SOCKET /\
  trace (onFlush ring_getBlock demo_unconnected [Accepts 100])
  = [EStderr DiagInvalidSocket] /\
  trace (QS_output ring_getBlock demo_unconnected [Accepts 100])
  = [EStderr DiagInvalidSocket] /\
  rx_trace (QS_rx_input demo_unconnected (Received [Byte.x01]))
  = [ERecv INVALID_SOCKET QS_RX_SIZE (-1)] /\
  filter is_stderr (rx_trace (QS_rx_input demo_unconnected (Received [Byte.x01])))
  = [] /\
  filter is_socket_io (rx_trace (QS_rx_input demo_unconnected (Received [Byte.x01])))
  = [ERecv INVALID_SOCKET QS_RX_SIZE (-1)].
Proof.
  assert (Hs : l_sock demo_unconnected = INVALID_SOCKET) by reflexivity.
  split; [exact Hs |].
  destruct (use_before_connect ring_getBlock demo_unconnected [Accepts 100]
              (Received [Byte.x01]) Hs) as (H1 & H2 & H3).
  rewrite H1, H2, H3. repeat split.
Defined.

Lemma QS_output_is_one_turn_of_onFlush_witness :
  l_sock demo_state <> INVALID_SOCKET /\
  onFlush ring_getBlock demo_state [Accepts 1; Accepts 100; Accepts 100]
  = then_run (QS_output ring_getBlock demo_state [Accepts 1; Accepts 100; Accepts 100])
      (onFlush ring_getBlock
         (final (QS_output ring_getBlock demo_state [Accepts 1; Accepts 100; Accepts 100]))
         [Accepts 100]).
Proof.
  assert (Hs : l_sock demo_state <> INVALID_SOCKET)
    by (unfold INVALID_SOCKET; simpl; lia).
  split; [exact Hs |].
  destruct (QS_output_is_one_turn_of_onFlush ring_getBlock demo_state
              [Accepts 1; Accepts 100; Accepts 100] Hs) as (_ & H & _).
  rewrite H. reflexivity.
Defined.

(** * Further properties of the port *)

(** ** The clock *)



Lemma spec_ticks_nanoseconds (t : timespec) :
  spec_ticks_100ns t = nanoseconds t / 100.
Proof.
  unfold spec_ticks_100ns, nanoseconds.
  replace (tv_sec t * 1000000000 + tv_nsec t)
    with (tv_nsec t + (tv_sec t * 10000000) * 100) by ring.
  rewrite Z.div_add by lia. ring.
Qed.

(** X2: the time stamp has a resolution of 100 ns and is unambiguous within
    one period of the counter: two readings in the same 100 ns slot get the
    same stamp, and two readings at least 100 ns and at most
    (2^width - 1) * 100 ns apart get different stamps; the stamp always
    fits the counter. *)
Theorem onGetTime_resolution (w : TimeCtrWidth) (t1 t2 : timespec) :
  timespec_valid t1 -> timespec_valid t2 ->
  (nanoseconds t1 / 100 = nanoseconds t2 / 100 ->
   onGetTime w t1 = onGetTime w t2) /\
  (100 <= nanoseconds t2 - nanoseconds t1 <= (2 ^ ctr_bits w - 1) * 100 ->
   onGetTime w t1 <> onGetTime w t2) /\
  0 <= onGetTime w t1 < 2 ^ ctr_bits w.
Proof.
  intros V1 V2. unfold timespec_valid in V1, V2.
  pose proof (ctr_modulus_pos w) as Hm.
  rewrite !onGetTime_ticks by lia. rewrite !spec_ticks_nanoseconds.
  split; [| split].
  - intros ->. reflexivity.
  - intros (Hlo & Hhi) Heq.
    set (a := nanoseconds t1) in *. set (b := nanoseconds t2) in *.
    assert (Ha : a / 100 + 1 <= b / 100).
    { replace (a / 100 + 1) with ((a + 1 * 100) / 100) by (rewrite Z.div_add; lia).
      apply Z.div_le_mono; lia. }
    assert (Hb : b / 100 <= a / 100 + (2 ^ ctr_bits w - 1)).
    { replace (a / 100 + (2 ^ ctr_bits w - 1))
        with ((a + (2 ^ ctr_bits w - 1) * 100) / 100) by (rewrite Z.div_add; lia).
      apply Z.div_le_mono; lia. }
    assert (Hd : (b / 100 - a / 100) mod 2 ^ ctr_bits w = 0).
    { rewrite Zminus_mod, Heq, Z.sub_diag. apply Z.mod_0_l. lia. }
    rewrite Z.mod_small in Hd by lia. lia.
  - apply Z.mod_pos_bound. lia.
Qed.

Lemma onGetTime_resolution_witness :
  onGetTime Ctr16 (mkTimespec 7 150) = onGetTime Ctr16 (mkTimespec 7 199) /\
  onGetTime Ctr16 (mkTimespec 7 150) <> onGetTime Ctr16 (mkTimespec 7 6553600).
Proof.
  assert (V1 : timespec_valid (mkTimespec 7 150)) by (unfold timespec_valid; simpl; lia).
  assert (V2 : timespec_valid (mkTimespec 7 199)) by (unfold timespec_valid; simpl; lia).
  assert (V3 : timespec_valid (mkTimespec 7 6553600)) by (unfold timespec_valid; simpl; lia).
  split.
  - apply (proj1 (onGetTime_resolution Ctr16 _ _ V1 V2)). reflexivity.
  - apply (proj1 (proj2 (onGetTime_resolution Ctr16 _ _ V1 V3))).
    unfold nanoseconds. simpl. lia.
Defined.

(** ** Endpoint parsing *)

Lemma host_portion_of_host (h rest : list ascii) :
  forallb host_char h = true ->
  Ascii.eqb (deref rest) NUL || Ascii.eqb (deref rest) COLON = true ->
  host_portion (h ++ rest) = h.
Proof.
  intros Hh Hrest. induction h as [|c h IH]; simpl in *.
  - destruct rest as [|c rest]; simpl in *; [reflexivity |].
    rewrite Hrest. reflexivity.
  - apply andb_prop in Hh as (Hc & Hh). unfold host_char in Hc.
    apply andb_prop in Hc as (H1 & H2).
    apply negb_true_iff in H1, H2. rewrite H1, H2. simpl.
    rewrite (IH Hh). reflexivity.
Qed.

Lemma c_string_of_text (s : list ascii) :
  forallb text_char s = true -> c_string s = s.
Proof.
  induction s as [|c s IH]; simpl; [reflexivity |].
  intros H. apply andb_prop in H as (Hc & Hs). unfold text_char in Hc.
  apply negb_true_iff in Hc. rewrite Hc, (IH Hs). reflexivity.
Qed.

(** X3: a host of at most 127 characters, none of them NUL or a colon,
    followed by a colon and a service without NUL, parses to exactly that
    host and that service, whatever the array held before; the host and
    the service may be empty and the service may itself contain colons. *)
Theorem endpoint_round_trip (h s hostName : list ascii) :
  length hostName = sizeof_hostName ->
  forallb host_char h = true -> (length h <= 127)%nat ->
  forallb text_char s = true ->
  endpoint_of (Some (h ++ COLON :: s)) hostName
  = Some (string_of_list_ascii h, string_of_list_ascii s).
Proof.
  intros Hlen Hh Hl Hs.
  assert (Hp : host_portion (h ++ COLON :: s) = h)
    by (apply host_portion_of_host; [exact Hh | reflexivity]).
  rewrite (endpoint_of_fitting _ _ Hlen) by (rewrite Hp; exact Hl).
  rewrite Hp. rewrite drop_app_length. simpl.
  replace (drop (S (length h)) (h ++ COLON :: s)) with s.
  - rewrite (c_string_of_text s Hs). reflexivity.
  - change (S (length h)) with (1 + length h)%nat.
    rewrite Nat.add_comm, <- drop_drop, drop_app_length. reflexivity.
Qed.

Lemma endpoint_round_trip_witness :
  endpoint_of (Some (cstr "10.0.0.7:http:alt")) (repeat "?"%char 128)
  = Some ("10.0.0.7"%string, "http:alt"%string) /\
  endpoint_of (Some (cstr ":7000")) (repeat "?"%char 128)
  = Some (""%string, "7000"%string) /\
  endpoint_of (Some (cstr "qspy:")) (repeat "?"%char 128)
  = Some ("qspy"%string, ""%string).
Proof.
  split; [| split].
  - apply (endpoint_round_trip (cstr "10.0.0.7") (cstr "http:alt")
             (repeat "?"%char 128)); [reflexivity | reflexivity | simpl; lia | reflexivity].
  - apply (endpoint_round_trip [] (cstr "7000")
             (repeat "?"%char 128)); [reflexivity | reflexivity | simpl; lia | reflexivity].
  - apply (endpoint_round_trip (cstr "qspy") []
             (repeat "?"%char 128)); [reflexivity | reflexivity | simpl; lia | reflexivity].
Defined.

(** X4: a configuration string without a colon, of at most 127 characters,
    is taken whole as the host, with the default service ["6601"]; this
    holds for the empty string too, whose host is empty and not
    ["localhost"]. *)
Theorem endpoint_without_colon (h hostName : list ascii) :
  length hostName = sizeof_hostName ->
  forallb host_char h = true -> (length h <= 127)%nat ->
  endpoint_of (Some h) hostName = Some (string_of_list_ascii h, "6601"%string).
Proof.
  intros Hlen Hh Hl.
  assert (Hp : host_portion h = h).
  { rewrite <- (app_nil_r h) at 1. apply host_portion_of_host; [exact Hh | reflexivity]. }
  rewrite (endpoint_of_fitting _ _ Hlen) by (rewrite Hp; exact Hl).
  rewrite Hp, drop_all. reflexivity.
Qed.

Lemma endpoint_without_colon_witness :
  endpoint_of (Some (cstr "")) (repeat "?"%char 128)
  = Some (""%string, "6601"%string) /\
  endpoint_of (Some (cstr "192.168.1.20")) (repeat "?"%char 128)
  = Some ("192.168.1.20"%string, "6601"%string).
Proof.
  split.
  - apply (endpoint_without_colon [] (repeat "?"%char 128));
      [reflexivity | reflexivity | simpl; lia].
  - apply (endpoint_without_colon (cstr "192.168.1.20") (repeat "?"%char 128));
      [reflexivity | reflexivity | simpl; lia].
Defined.

(** X5: whatever the configuration string, the host name handed to
    [getaddrinfo] is a prefix of it (of ["localhost"] for [nullptr]), has
    at most 127 characters and contains neither a colon nor NUL. *)
Theorem endpoint_host_is_bounded_prefix (arg : option (list ascii))
    (hostName : list ascii) :
  length hostName = sizeof_hostName ->
  exists (host : list ascii) (service : string),
    endpoint_of arg hostName = Some (string_of_list_ascii host, service) /\
    host `prefix_of` (match arg with Some a => a | None => cstr "localhost" end) /\
    (length host <= 127)%nat /\
    forallb host_char host = true.
Proof.
  intros Hlen.
  rewrite (endpoint_of_closed_form arg hostName Hlen).
  set (src := match arg with Some a => a | None => cstr "localhost" end).
  set (k := Nat.min (length (host_portion src)) 127).
  eexists (take k (host_portion src)), _. split; [reflexivity |].
  split; [| split].
  - rewrite <- (host_portion_prefix src k) by (unfold k; lia).
    exists (drop k src). symmetry. apply take_drop.
  - rewrite length_take. unfold k. lia.
  - apply forallb_forall. intros c Hc.
    pose proof (host_portion_chars src) as HF.
    rewrite Forall_forall in HF.
    assert (Hin : c ∈ host_portion src).
    { apply list_elem_of_In in Hc. eapply subseteq_take, Hc. }
    destruct (HF c Hin) as (H1 & H2). unfold host_char. rewrite H1, H2. reflexivity.
Qed.

Lemma endpoint_host_is_bounded_prefix_witness :
  exists (host : list ascii) (service : string),
    endpoint_of (Some (repeat "h"%char 200 ++ cstr ":7000")) (repeat "?"%char 128)
    = Some (string_of_list_ascii host, service) /\
    host `prefix_of` (repeat "h"%char 200 ++ cstr ":7000") /\
    (length host <= 127)%nat /\
    forallb host_char host = true.
Proof.
  apply (endpoint_host_is_bounded_prefix
           (Some (repeat "h"%char 200 ++ cstr ":7000")) (repeat "?"%char 128)).
  reflexivity.
Defined.

(** X6: the result of the parsing does not depend on what the array
    [hostName] held before: uninitialised stack memory never reaches the
    host name or the service. *)
Theorem endpoint_ignores_stack_content (arg : option (list ascii))
    (hostName1 hostName2 : list ascii) :
  length hostName1 = sizeof_hostName -> length hostName2 = sizeof_hostName ->
  endpoint_of arg hostName1 = endpoint_of arg hostName2.
Proof.
  intros H1 H2.
  rewrite (endpoint_of_closed_form arg hostName1 H1).
  rewrite (endpoint_of_closed_form arg hostName2 H2). reflexivity.
Qed.

Lemma endpoint_ignores_stack_content_witness :
  endpoint_of (Some (cstr "example.org:7000")) (repeat "?"%char 128)
  = endpoint_of (Some (cstr "example.org:7000")) (repeat "x"%char 127 ++ [NUL]).
Proof.
  apply (endpoint_ignores_stack_content (Some (cstr "example.org:7000"))
           (repeat "?"%char 128) (repeat "x"%char 127 ++ [NUL])); reflexivity.
Defined.

(** ** Connecting *)

Lemma onStartup_connect_balance (rp : list Candidate) (l : Z) :
  rp <> [] \/ l = INVALID_SOCKET ->
  opened (snd (onStartup_connect rp l))
  = closed (snd (onStartup_connect rp l))
    ++ (if fst (onStartup_connect rp l) =? INVALID_SOCKET then []
        else [fst (onStartup_connect rp l)]).
Proof.
  revert l. induction rp as [|c rp IH]; intros l H.
  - destruct H as [H | ->]; [contradiction | reflexivity].
  - simpl. destruct (cand_socket c =? INVALID_SOCKET) eqn:E; simpl.
    + specialize (IH (cand_socket c) (or_intror (proj1 (Z.eqb_eq _ _) E))).
      destruct (onStartup_connect rp (cand_socket c)) as [s evs].
      simpl in *. rewrite E. exact IH.
    + destruct (cand_connect c =? SOCKET_ERROR); simpl; rewrite E; reflexivity.
Qed.

Lemma onStartup_connect_opens_one (rp : list Candidate) (l : Z) :
  (length (opened (snd (onStartup_connect rp l))) <= 1)%nat.
Proof.
  revert l. induction rp as [|c rp IH]; intros l; simpl; [lia |].
  destruct (cand_socket c =? INVALID_SOCKET) eqn:E; simpl.
  - specialize (IH (cand_socket c)).
    destruct (onStartup_connect rp (cand_socket c)) as [s evs].
    simpl in *. rewrite E. exact IH.
  - destruct (cand_connect c =? SOCKET_ERROR); simpl; rewrite E; simpl; lia.
Qed.

(** X7: the candidate loop leaks no descriptor.  It opens at most one
    socket; when the list is not empty the sockets it opened are the ones
    it closed followed by the one it left in [l_sock], if it left one; it
    closes nothing it did not open; and on an empty list it makes no call
    and leaves [l_sock] as it was. *)
Theorem onStartup_connect_no_leak (rp : list Candidate) (l : Z) :
  (rp = [] -> onStartup_connect rp l = (l, [])) /\
  (rp <> [] ->
   opened (snd (onStartup_connect rp l))
   = closed (snd (onStartup_connect rp l))
     ++ (if fst (onStartup_connect rp l) =? INVALID_SOCKET then []
         else [fst (onStartup_connect rp l)])) /\
  (length (opened (snd (onStartup_connect rp l))) <= 1)%nat /\
  closed (snd (onStartup_connect rp l)) `prefix_of`
    opened (snd (onStartup_connect rp l)).
Proof.
  split; [intros ->; reflexivity |].
  split; [intros H; apply onStartup_connect_balance; left; exact H |].
  split; [apply onStartup_connect_opens_one |].
  destruct rp as [|c rp]; [exists []; reflexivity |].
  rewrite (onStartup_connect_balance (c :: rp) l) by (left; discriminate).
  eexists. reflexivity.
Qed.

Lemma onStartup_connect_no_leak_witness :
  let rp := [ {| cand_addr := 1; cand_socket := INVALID_SOCKET; cand_connect := 0 |};
              {| cand_addr := 2; cand_socket := 9; cand_connect := SOCKET_ERROR |};
              {| cand_addr := 3; cand_socket := 10; cand_connect := 0 |} ] in
  opened (snd (onStartup_connect rp INVALID_SOCKET)) = [9] /\
  closed (snd (onStartup_connect rp INVALID_SOCKET)) = [9] /\
  fst (onStartup_connect rp INVALID_SOCKET) = INVALID_SOCKET.
Proof.
  intros rp.
  assert (Hne : rp <> []) by discriminate.
  pose proof (proj1 (proj2 (onStartup_connect_no_leak rp INVALID_SOCKET)) Hne) as H.
  repeat split; reflexivity.
Defined.

(** ** The transmit path *)

(** [k] calls of [send] that fail alike, each followed by the sleep. *)
Lemma accepted_streak (mem : Z -> Byte.byte) (s d n e : Z) (k : nat) (t : list Event) :
  accepted mem (concat (repeat [ESend s d n SOCKET_ERROR e; ESleep c_timeout] k) ++ t)
  = accepted mem t.
Proof.
  induction k as [|k IH]; [reflexivity |].
  cbn [repeat concat app accepted]. rewrite Z.eqb_refl. exact IH.
Qed.

Lemma sends_streak (s d n e : Z) (k : nat) :
  length (filter is_send (concat (repeat [ESend s d n SOCKET_ERROR e; ESleep c_timeout] k)))
  = k.
Proof.
  induction k as [|k IH]; [reflexivity |].
  cbn [repeat concat app].
  rewrite filter_cons_True by exact I.
  rewrite filter_cons_False by (intros []).
  simpl. rewrite IH. reflexivity.
Qed.

Lemma sleeps_streak (s d n e : Z) (k : nat) :
  length (filter is_sleep (concat (repeat [ESend s d n SOCKET_ERROR e; ESleep c_timeout] k)))
  = k.
Proof.
  induction k as [|k IH]; [reflexivity |].
  cbn [repeat concat app].
  rewrite filter_cons_False by (intros []).
  rewrite filter_cons_True by exact I.
  simpl. rewrite IH. reflexivity.
Qed.

Lemma stderr_streak (s d n e : Z) (k : nat) :
  filter is_stderr (concat (repeat [ESend s d n SOCKET_ERROR e; ESleep c_timeout] k))
  = [].
Proof.
  induction k as [|k IH]; [reflexivity |].
  cbn [repeat concat app].
  rewrite !filter_cons_False by (intros []). exact IH.
Qed.

Section PumpExtras.

Context {RB : Type} (getBlock : RB -> Z -> option (Z * Z) * RB).
Implicit Types (st : State RB) (script : list SendResp).

(** *** The critical section *)

Lemma onFlush_send_crit script :
  forall st d n,
    crit_walk false (trace (onFlush_send getBlock st script d n)) = Some false.
Proof.
  induction script as [|r script IH]; intros st d n; [reflexivity |].
  simpl. destruct (send r n) as [m e].
  destruct (m =? SOCKET_ERROR);
    [destruct ((e =? EWOULDBLOCK) || (e =? EAGAIN)) | destruct (m <? n)];
    simpl; try apply IH; try reflexivity.
  destruct (getBlock (priv_ st) (u16 QS_TX_CHUNK)) as [[[d' n']|] rb]; simpl;
    [apply IH | reflexivity].
Qed.

Lemma QS_output_send_crit script :
  forall st d n,
    crit_walk false (trace (QS_output_send st script d n)) = Some false.
Proof.
  induction script as [|r script IH]; intros st d n; [reflexivity |].
  simpl. destruct (send r n) as [m e].
  destruct (m =? SOCKET_ERROR);
    [destruct ((e =? EWOULDBLOCK) || (e =? EAGAIN)) | destruct (m <? n)];
    simpl; try apply IH; reflexivity.
Qed.

(** X8: in [QS::onFlush] and in [QS_output] the critical section is held
    around [getBlock] and around nothing else: entering and leaving
    alternate, every [getBlock] happens inside, every [send], every
    [nanosleep] and every diagnostic happens outside, and wherever the
    trace ends - also at the return after a send error - the critical
    section has been left. *)
Theorem tx_critical_section_discipline st script :
  crit_walk false (trace (onFlush getBlock st script)) = Some false /\
  crit_walk false (trace (QS_output getBlock st script)) = Some false.
Proof.
  unfold onFlush, onFlush_while, QS_output.
  destruct (l_sock st =? INVALID_SOCKET); [split; reflexivity |].
  destruct (getBlock (priv_ st) (u16 QS_TX_CHUNK)) as [[[d n]|] rb]; simpl;
    [| split; reflexivity].
  split; [apply onFlush_send_crit | apply QS_output_send_crit].
Qed.

(** *** Every send is on the unsent part of the last block *)

Lemma onFlush_while_remainder_from_send script :
  (forall st d n, 0 <= n < 65536 ->
     exists rest,
       remainder_walk (d, n) (trace (onFlush_send getBlock st script d n))
       = Some rest /\
       (exit (onFlush_send getBlock st script d n) = Finished -> snd rest = 0)) ->
  forall st d0,
    exists rest,
      remainder_walk (d0, 0) (trace (onFlush_while getBlock st script))
      = Some rest /\
      (exit (onFlush_while getBlock st script) = Finished -> snd rest = 0).
Proof.
  intros Hsend st d0. unfold onFlush_while.
  destruct (getBlock (priv_ st) (u16 QS_TX_CHUNK)) as [[[d n]|] rb]; simpl.
  - apply Hsend, u16_range.
  - eexists. split; reflexivity.
Qed.

Lemma onFlush_send_remainder script :
  forall st d n, 0 <= n < 65536 ->
    exists rest,
      remainder_walk (d, n) (trace (onFlush_send getBlock st script d n))
      = Some rest /\
      (exit (onFlush_send getBlock st script d n) = Finished -> snd rest = 0).
Proof.
  induction script as [|r script IH]; intros st d n Hn.
  - eexists. split; [reflexivity | discriminate].
  - destruct (send_cases r n)
      as [(e & -> & Hwb) | [(e & -> & Hwb) | [(room & -> & Hr) | (room & -> & Hr)]]].
    + rewrite (onFlush_send_would_block _ _ _ _ _ _ Hwb).
      cbn [trace exit emit remainder_walk fst snd]. rewrite !Z.eqb_refl. simpl.
      apply IH, Hn.
    + rewrite (onFlush_send_hard_error _ _ _ _ _ _ Hwb).
      cbn [trace exit emit stop remainder_walk fst snd]. rewrite !Z.eqb_refl. simpl.
      eexists. split; [reflexivity | discriminate].
    + rewrite (onFlush_send_partial _ _ _ _ _ _ Hn Hr).
      cbn [trace exit emit remainder_walk fst snd]. rewrite !Z.eqb_refl. simpl.
      assert ((Z.of_nat room =? SOCKET_ERROR) = false) as ->
        by (apply Z.eqb_neq; unfold SOCKET_ERROR; lia).
      assert ((0 <=? Z.of_nat room) = true) as -> by (apply Z.leb_le; lia).
      assert ((Z.of_nat room <=? n) = true) as -> by (apply Z.leb_le; lia).
      simpl. apply IH. lia.
    + rewrite (onFlush_send_full _ _ _ _ _ _ (proj1 Hn) Hr).
      cbn [trace exit emit remainder_walk fst snd]. rewrite !Z.eqb_refl. simpl.
      assert ((n =? SOCKET_ERROR) = false) as ->
        by (apply Z.eqb_neq; unfold SOCKET_ERROR; lia).
      assert ((0 <=? n) = true) as -> by (apply Z.leb_le; lia).
      rewrite Z.leb_refl, Z.sub_diag. simpl.
      apply (onFlush_while_remainder_from_send script IH).
Qed.

Lemma QS_output_send_remainder script :
  forall st d n, 0 <= n < 65536 ->
    exists rest,
      remainder_walk (d, n) (trace (QS_output_send st script d n)) = Some rest /\
      (exit (QS_output_send st script d n) = Finished -> snd rest = 0).
Proof.
  induction script as [|r script IH]; intros st d n Hn.
  - eexists. split; [reflexivity | discriminate].
  - destruct (send_cases r n)
      as [(e & -> & Hwb) | [(e & -> & Hwb) | [(room & -> & Hr) | (room & -> & Hr)]]].
    + rewrite (QS_output_send_would_block _ _ _ _ _ Hwb).
      cbn [trace exit emit remainder_walk fst snd]. rewrite !Z.eqb_refl. simpl.
      apply IH, Hn.
    + rewrite (QS_output_send_hard_error _ _ _ _ _ Hwb).
      cbn [trace exit emit stop remainder_walk fst snd]. rewrite !Z.eqb_refl. simpl.
      eexists. split; [reflexivity | discriminate].
    + rewrite (QS_output_send_partial _ _ _ _ _ Hn Hr).
      cbn [trace exit emit remainder_walk fst snd]. rewrite !Z.eqb_refl. simpl.
      assert ((Z.of_nat room =? SOCKET_ERROR) = false) as ->
        by (apply Z.eqb_neq; unfold SOCKET_ERROR; lia).
      assert ((0 <=? Z.of_nat room) = true) as -> by (apply Z.leb_le; lia).
      assert ((Z.of_nat room <=? n) = true) as -> by (apply Z.leb_le; lia).
      simpl. apply IH. lia.
    + rewrite (QS_output_send_full _ _ _ _ _ (proj1 Hn) Hr).
      cbn [trace exit emit stop remainder_walk fst snd]. rewrite !Z.eqb_refl. simpl.
      assert ((n =? SOCKET_ERROR) = false) as ->
        by (apply Z.eqb_neq; unfold SOCKET_ERROR; lia).
      assert ((0 <=? n) = true) as -> by (apply Z.leb_le; lia).
      rewrite Z.leb_refl, Z.sub_diag. simpl.
      eexists. split; reflexivity.
Qed.

(** X9: in every trace of [QS::onFlush] and of [QS_output] each call of
    [send] is on exactly the part of the last fetched block that the
    socket has not taken yet - never on bytes outside the block, never
    on bytes already taken, never past bytes not yet taken - and a block
    is fetched only when nothing of the last one is left; a call that
    runs to its end leaves nothing unsent. *)
Theorem tx_sends_walk_the_block st script (d0 : Z) :
  (exists rest,
     remainder_walk (d0, 0) (trace (onFlush getBlock st script)) = Some rest /\
     (exit (onFlush getBlock st script) = Finished -> snd rest = 0)) /\
  (exists rest,
     remainder_walk (d0, 0) (trace (QS_output getBlock st script)) = Some rest /\
     (exit (QS_output getBlock st script) = Finished -> snd rest = 0)).
Proof.
  unfold onFlush, QS_output. destruct (l_sock st =? INVALID_SOCKET).
  - split; eexists; (split; [reflexivity | discriminate]).
  - split.
    + apply (onFlush_while_remainder_from_send script (onFlush_send_remainder script)).
    + destruct (getBlock (priv_ st) (u16 QS_TX_CHUNK)) as [[[d n]|] rb]; simpl.
      * apply QS_output_send_remainder, u16_range.
      * eexists. split; reflexivity.
Qed.

(** *** [QS_output] delivers its block *)

Lemma QS_output_send_delivery (mem : Z -> Byte.byte) script :
  forall st d n, 0 <= n < 65536 ->
    exists unsent,
      accepted mem (trace (QS_output_send st script d n)) ++ unsent
      = bytes_at mem d n /\
      (exit (QS_output_send st script d n) = Finished -> unsent = []).
Proof.
  induction script as [|r script IH]; intros st d n Hn.
  - exists (bytes_at mem d n). split; [reflexivity | discriminate].
  - destruct (send_cases r n)
      as [(e & -> & Hwb) | [(e & -> & Hwb) | [(room & -> & Hr) | (room & -> & Hr)]]].
    + rewrite (QS_output_send_would_block _ _ _ _ _ Hwb).
      cbn [trace exit emit accepted]. rewrite Z.eqb_refl. apply IH, Hn.
    + rewrite (QS_output_send_hard_error _ _ _ _ _ Hwb).
      cbn [trace exit emit stop accepted]. rewrite Z.eqb_refl.
      exists (bytes_at mem d n). split; [reflexivity | discriminate].
    + rewrite (QS_output_send_partial _ _ _ _ _ Hn Hr).
      cbn [trace exit emit accepted].
      assert ((Z.of_nat room =? SOCKET_ERROR) = false) as ->
        by (apply Z.eqb_neq; unfold SOCKET_ERROR; lia).
      destruct (IH st (d + Z.of_nat room) (n - Z.of_nat room)) as (u & Hu & Hfin);
        [lia |].
      exists u. split; [| exact Hfin].
      rewrite <- app_assoc. cbn [app]. rewrite Hu.
      symmetry. apply bytes_at_split. lia.
    + rewrite (QS_output_send_full _ _ _ _ _ (proj1 Hn) Hr).
      cbn [trace exit emit stop accepted].
      assert ((n =? SOCKET_ERROR) = false) as ->
        by (apply Z.eqb_neq; unfold SOCKET_ERROR; lia).
      exists []. split; [rewrite !app_nil_r; reflexivity | reflexivity].
Qed.

(** X10: whatever the socket answers, the bytes it takes during one call
    of [QS_output] are a leading part of the one block that call fetched,
    and all of that block when the call runs to its end; [QS_output]
    fetches at most one block. *)
Theorem QS_output_delivers_its_block (mem : Z -> Byte.byte) st script :
  (length (fetched (trace (QS_output getBlock st script))) <= 1)%nat /\
  (exists unsent,
     accepted mem (trace (QS_output getBlock st script)) ++ unsent
     = block_bytes mem (fetched (trace (QS_output getBlock st script)))) /\
  (exit (QS_output getBlock st script) = Finished ->
   accepted mem (trace (QS_output getBlock st script))
   = block_bytes mem (fetched (trace (QS_output getBlock st script)))).
Proof.
  unfold QS_output. destruct (l_sock st =? INVALID_SOCKET).
  { simpl. split; [lia |]. split; [exists []; reflexivity | reflexivity]. }
  destruct (getBlock (priv_ st) (u16 QS_TX_CHUNK)) as [[[d n]|] rb].
  - destruct (QS_output_send_frame script (set_priv st rb) d (u16 n))
      as (_ & _ & _ & Hg).
    assert (Hf : fetched (trace (QS_output_send (set_priv st rb) script d (u16 n))) = []).
    { revert Hg. generalize (trace (QS_output_send (set_priv st rb) script d (u16 n))).
      intros t. induction t as [|e t IHt]; [reflexivity |].
      destruct e; simpl; try exact IHt; discriminate. }
    destruct (QS_output_send_delivery mem script (set_priv st rb) d (u16 n)
                (u16_range n)) as (u & Hu & Hfin).
    cbn [trace exit emit accepted fetched]. rewrite Hf.
    cbn [block_bytes flat_map fst snd length]. rewrite app_nil_r.
    split; [lia |]. split; [exists u; exact Hu |].
    intros Hx. rewrite (Hfin Hx), app_nil_r in Hu. exact Hu.
  - simpl. split; [lia |]. split; [exists []; reflexivity | reflexivity].
Qed.

(** *** The transmit path leaves the rest alone *)

(** X11: [QS::onFlush] and [QS_output] never change [l_sock] or the
    receive window, never close a descriptor and never end the process,
    whatever the socket answers - also after a send error. *)
Theorem tx_leaves_socket_and_rx_alone st script :
  (l_sock (final (onFlush getBlock st script)) = l_sock st /\
   rxPriv_ (final (onFlush getBlock st script)) = rxPriv_ st /\
   filter is_close (trace (onFlush getBlock st script)) = [] /\
   filter is_exit (trace (onFlush getBlock st script)) = []) /\
  (l_sock (final (QS_output getBlock st script)) = l_sock st /\
   rxPriv_ (final (QS_output getBlock st script)) = rxPriv_ st /\
   filter is_close (trace (QS_output getBlock st script)) = [] /\
   filter is_exit (trace (QS_output getBlock st script)) = []).
Proof. split; [apply onFlush_frame | apply QS_output_frame]. Qed.

(** *** A flush returns normally only from an empty buffer *)

Lemma onFlush_send_finished script :
  forall st d n,
    exit (onFlush_send getBlock st script d n) = Finished ->
    exists t rb,
      trace (onFlush_send getBlock st script d n)
      = t ++ [ECritE; EGetBlock QS_TX_CHUNK None; ECritX] /\
      getBlock rb QS_TX_CHUNK
      = (None, priv_ (final (onFlush_send getBlock st script d n))).
Proof.
  induction script as [|r script IH]; intros st d n; [discriminate |].
  simpl. destruct (send r n) as [m e].
  destruct (m =? SOCKET_ERROR);
    [destruct ((e =? EWOULDBLOCK) || (e =? EAGAIN)) | destruct (m <? n)];
    cbn [exit emit stop trace final]; try discriminate.
  - intros Hx. destruct (IH _ _ _ Hx) as (t & rb & -> & Hg).
    exists (ESend (l_sock st) d n m e :: ESleep c_timeout :: t), rb.
    split; [reflexivity | exact Hg].
  - intros Hx. destruct (IH _ _ _ Hx) as (t & rb & -> & Hg).
    exists (ESend (l_sock st) d n m e :: ESleep c_timeout :: t), rb.
    split; [reflexivity | exact Hg].
  - destruct (getBlock (priv_ st) (u16 QS_TX_CHUNK)) as [[[d' n']|] rb] eqn:E;
      cbn [exit emit stop trace final].
    + intros Hx. destruct (IH _ _ _ Hx) as (t & rb' & -> & Hg).
      exists (ESend (l_sock st) d n m e :: ECritE
              :: EGetBlock (u16 QS_TX_CHUNK) (Some (d', u16 n')) :: ECritX :: t), rb'.
      split; [reflexivity | exact Hg].
    + intros _. exists [ESend (l_sock st) d n m e], (priv_ st).
      split; [reflexivity | exact E].
Qed.

(** X12: [QS::onFlush] returns normally only when the ring buffer has
    just reported that it is empty: a flush that ran to its end ends with
    a [getBlock] that returned no block, inside its own critical section,
    and leaves the buffer in the state that call produced. *)
Theorem onFlush_returns_from_empty_buffer st script :
  exit (onFlush getBlock st script) = Finished ->
  exists t rb,
    trace (onFlush getBlock st script)
    = t ++ [ECritE; EGetBlock QS_TX_CHUNK None; ECritX] /\
    getBlock rb QS_TX_CHUNK = (None, priv_ (final (onFlush getBlock st script))).
Proof.
  unfold onFlush, onFlush_while.
  destruct (l_sock st =? INVALID_SOCKET); [discriminate |].
  destruct (getBlock (priv_ st) (u16 QS_TX_CHUNK)) as [[[d n]|] rb] eqn:E;
    cbn [exit emit stop trace final].
  - intros Hx. destruct (onFlush_send_finished script _ _ _ Hx) as (t & rb' & -> & Hg).
    exists (ECritE :: EGetBlock (u16 QS_TX_CHUNK) (Some (d, u16 n)) :: ECritX :: t), rb'.
    split; [reflexivity | exact Hg].
  - intros _. exists [], (priv_ st). split; [reflexivity | exact E].
Qed.

(** *** Would-block, then success *)

Lemma QS_output_send_would_block_streak (k : nat) (e : Z) script st d n :
  would_block e = true ->
  trace (QS_output_send st (repeat (Fails e) k ++ script) d n)
  = concat (repeat [ESend (l_sock st) d n SOCKET_ERROR e; ESleep c_timeout] k)
    ++ trace (QS_output_send st script d n) /\
  exit (QS_output_send st (repeat (Fails e) k ++ script) d n)
  = exit (QS_output_send st script d n) /\
  unread (QS_output_send st (repeat (Fails e) k ++ script) d n)
  = unread (QS_output_send st script d n).
Proof.
  intros Hwb. induction k as [|k (IHt & IHx & IHu)]; [repeat split |].
  cbn [repeat app].
  rewrite (QS_output_send_would_block _ _ _ _ _ Hwb).
  cbn [trace exit unread emit concat]. rewrite IHt, IHx, IHu. repeat split.
Qed.

(** X13: when [send] answers would-block [k] times and then takes the
    whole block, [QS_output] has called [send] [k + 1] times and slept
    [k] times, the socket has taken exactly the bytes of the block, each
    once, and the call returns without a diagnostic; the answers the
    socket had in store beyond that are not used. *)
Theorem QS_output_delivers_after_would_blocks (mem : Z -> Byte.byte)
    st (k : nat) (e : Z) (room : nat) script d n rb :
  l_sock st <> INVALID_SOCKET ->
  getBlock (priv_ st) (u16 QS_TX_CHUNK) = (Some (d, n), rb) ->
  would_block e = true ->
  u16 n <= Z.of_nat room ->
  exit (QS_output getBlock st (repeat (Fails e) k ++ Accepts room :: script))
  = Finished /\
  unread (QS_output getBlock st (repeat (Fails e) k ++ Accepts room :: script))
  = script /\
  accepted mem
    (trace (QS_output getBlock st (repeat (Fails e) k ++ Accepts room :: script)))
  = bytes_at mem d (u16 n) /\
  length (sends
    (trace (QS_output getBlock st (repeat (Fails e) k ++ Accepts room :: script))))
  = S k /\
  length (filter is_sleep
    (trace (QS_output getBlock st (repeat (Fails e) k ++ Accepts room :: script))))
  = k /\
  filter is_stderr
    (trace (QS_output getBlock st (repeat (Fails e) k ++ Accepts room :: script)))
  = [].
Proof.
  intros Hs Hg Hwb Hroom. unfold QS_output.
  apply Z.eqb_neq in Hs. rewrite Hs, Hg.
  destruct (QS_output_send_would_block_streak k e (Accepts room :: script)
              (set_priv st rb) d (u16 n) Hwb) as (Ht & Hx & Hu).
  pose proof (u16_range n) as Hn.
  rewrite (QS_output_send_full _ _ _ _ _ (proj1 Hn) Hroom) in Ht, Hx, Hu.
  cbn [trace exit unread emit stop] in *.
  rewrite Ht, Hx, Hu. clear Ht Hx Hu.
  split; [reflexivity |]. split; [reflexivity |].
  cbn [accepted]. rewrite accepted_streak. cbn [accepted].
  assert ((u16 n =? SOCKET_ERROR) = false) as ->
    by (apply Z.eqb_neq; unfold SOCKET_ERROR; lia).
  rewrite app_nil_r. split; [reflexivity |].
  unfold sends. repeat rewrite filter_cons_False by (intros []).
  rewrite !filter_app, !length_app, sends_streak, sleeps_streak, stderr_streak.
  simpl. repeat split; lia.
Qed.

End PumpExtras.

(** *** The transmit path on a concrete run *)

Lemma tx_sends_walk_the_block_witness :
  remainder_walk (0, 0)
    (trace (onFlush ring_getBlock demo_state
              [Fails EAGAIN; Accepts 1; Accepts 100; Accepts 100]))
  = Some (3, 0).
Proof.
  destruct (proj1 (tx_sends_walk_the_block ring_getBlock demo_state
                     [Fails EAGAIN; Accepts 1; Accepts 100; Accepts 100] 0))
    as (rest & H & _).
  reflexivity.
Defined.

Lemma QS_output_delivers_its_block_witness :
  accepted demo_mem
    (trace (QS_output ring_getBlock demo_state [Accepts 1; Fails EAGAIN; Accepts 3]))
  = [Byte.x0c; Byte.x0d; Byte.x0e; Byte.x0f].
Proof.
  etransitivity.
  - apply (proj2 (proj2 (QS_output_delivers_its_block ring_getBlock demo_mem demo_state
                           [Accepts 1; Fails EAGAIN; Accepts 3]))).
    reflexivity.
  - reflexivity.
Defined.

Lemma onFlush_returns_from_empty_buffer_witness :
  exists t rb,
    trace (onFlush ring_getBlock demo_state [Accepts 100; Accepts 100])
    = t ++ [ECritE; EGetBlock QS_TX_CHUNK None; ECritX] /\
    ring_getBlock rb QS_TX_CHUNK
    = (None, priv_ (final (onFlush ring_getBlock demo_state [Accepts 100; Accepts 100]))).
Proof.
  apply (onFlush_returns_from_empty_buffer ring_getBlock demo_state
           [Accepts 100; Accepts 100]).
  reflexivity.
Defined.

Lemma QS_output_delivers_after_would_blocks_witness :
  exit (QS_output ring_getBlock demo_state
          (repeat (Fails EAGAIN) 3 ++ Accepts 100 :: [Accepts 5])) = Finished /\
  unread (QS_output ring_getBlock demo_state
            (repeat (Fails EAGAIN) 3 ++ Accepts 100 :: [Accepts 5])) = [Accepts 5] /\
  accepted demo_mem
    (trace (QS_output ring_getBlock demo_state
              (repeat (Fails EAGAIN) 3 ++ Accepts 100 :: [Accepts 5])))
  = [Byte.x0c; Byte.x0d; Byte.x0e; Byte.x0f].
Proof.
  assert (Hs : l_sock demo_state <> INVALID_SOCKET)
    by (unfold INVALID_SOCKET; simpl; lia).
  assert (Hr : u16 4 <= Z.of_nat 100) by (vm_compute; discriminate).
  destruct (QS_output_delivers_after_would_blocks ring_getBlock demo_mem demo_state
              3 EAGAIN 100 [Accepts 5] 12 4
              {| ring_end := 16; ring_tail := 0; ring_used := 3 |}
              Hs eq_refl eq_refl Hr) as (Hx & Hu & Ha & _).
  split; [exact Hx |]. split; [exact Hu |].
  etransitivity; [exact Ha | reflexivity].
Defined.

(** ** The receive path *)



(** X15: when [l_sock] is invalid, or [recv] fails, or it delivers nothing,
    or the window has size 0, [QS_rx_input] calls [recv] once, gets a
    status that is not positive, changes nothing and does not call
    [rxParse]. *)
Theorem QS_rx_input_idle {RB : Type} (st : State RB) (resp : RecvResp) :
  l_sock st = INVALID_SOCKET \/ resp = Received [] \/
  (exists errno, resp = RecvFails errno) \/ rx_end (rxPriv_ st) = 0 ->
  rx_final (QS_rx_input st resp) = st /\
  exists status,
    status <= 0 /\
    rx_trace (QS_rx_input st resp)
    = [ERecv (l_sock st) (rx_end (rxPriv_ st)) status].
Proof.
  intros H. unfold QS_rx_input, recv.
  destruct (l_sock st =? INVALID_SOCKET) eqn:Es.
  { simpl. split; [reflexivity |]. exists (-1). split; [lia | reflexivity]. }
  destruct H as [H | [-> | [(e & ->) | H]]].
  - apply Z.eqb_neq in Es. contradiction.
  - rewrite take_nil. simpl. split; [reflexivity |]. exists 0. split; [lia | reflexivity].
  - simpl. split; [reflexivity |]. exists (-1). split; [lia | reflexivity].
  - destruct resp as [bytes | e].
    + rewrite H. simpl. split; [reflexivity |]. exists 0. split; [lia | reflexivity].
    + simpl. split; [reflexivity |]. exists (-1). split; [lia | reflexivity].
Qed.

Lemma QS_rx_input_idle_witness :
  rx_final (QS_rx_input demo_state (RecvFails EAGAIN)) = demo_state /\
  rx_final (QS_rx_input demo_state (Received [])) = demo_state.
Proof.
  split.
  - apply (QS_rx_input_idle demo_state (RecvFails EAGAIN)).
    right. right. left. exists EAGAIN. reflexivity.
  - apply (QS_rx_input_idle demo_state (Received [])).
    right. left. reflexivity.
Defined.

(** ** Closing *)

(** X16: [QS::onCleanup] closes the descriptor in [l_sock] exactly when it
    is valid, leaves [l_sock] invalid and the buffers untouched, and does
    nothing when called again; [QS::onReset] after it closes nothing and
    only ends the process. *)
Theorem onCleanup_closes_once {RB : Type} (st : State RB) :
  fst (onCleanup st)
  = (if l_sock st =? INVALID_SOCKET then [] else [EClose (l_sock st)]) /\
  l_sock (snd (onCleanup st)) = INVALID_SOCKET /\
  priv_ (snd (onCleanup st)) = priv_ st /\
  rxPriv_ (snd (onCleanup st)) = rxPriv_ st /\
  onCleanup (snd (onCleanup st)) = ([], snd (onCleanup st)) /\
  fst (onReset (snd (onCleanup st))) = [EExit 0].
Proof.
  destruct (onCleanup_twice st) as (Hl & Htwice).
  unfold onReset. rewrite Htwice.
  unfold onCleanup in *. destruct (l_sock st =? INVALID_SOCKET); simpl in *;
    repeat split; try assumption.
Qed.

(** X17: once [QS::onCleanup] has run, the transmit and the receive path
    no longer reach a socket that is open: [QS::onFlush] and [QS_output]
    only print the invalid-socket diagnostic, and [QS_rx_input] gets a
    failure from [recv] and changes nothing; none of them consumes an
    answer of the socket or touches the buffers. *)
Theorem after_cleanup_no_traffic {RB : Type}
    (getBlock : RB -> Z -> option (Z * Z) * RB) (st : State RB)
    (script : list SendResp) (resp : RecvResp) :
  trace (onFlush getBlock (snd (onCleanup st)) script) = [EStderr DiagInvalidSocket] /\
  unread (onFlush getBlock (snd (onCleanup st)) script) = script /\
  final (onFlush getBlock (snd (onCleanup st)) script) = snd (onCleanup st) /\
  trace (QS_output getBlock (snd (onCleanup st)) script) = [EStderr DiagInvalidSocket] /\
  unread (QS_output getBlock (snd (onCleanup st)) script) = script /\
  final (QS_output getBlock (snd (onCleanup st)) script) = snd (onCleanup st) /\
  rx_trace (QS_rx_input (snd (onCleanup st)) resp)
  = [ERecv INVALID_SOCKET (rx_end (rxPriv_ st)) (-1)] /\
  rx_final (QS_rx_input (snd (onCleanup st)) resp) = snd (onCleanup st).
Proof.
  destruct (onCleanup_twice st) as (Hl & _).
  assert (Hrx : rxPriv_ (snd (onCleanup st)) = rxPriv_ st)
    by (unfold onCleanup; destruct (l_sock st =? INVALID_SOCKET); reflexivity).
  unfold onFlush, QS_output, QS_rx_input, recv.
  rewrite Hl, Hrx. simpl. repeat split.
Qed.

(** ** Startup as a whole *)

Lemma port_calls_app (t1 t2 : list Call) :
  port_calls (t1 ++ t2) = port_calls t1 ++ port_calls t2.
Proof. apply flat_map_app. Qed.

Lemma port_calls_CPort (evs : list Event) : port_calls (map CPort evs) = evs.
Proof. induction evs as [|e evs IH]; simpl; [reflexivity | rewrite IH; reflexivity]. Qed.

Lemma startup_diags_app (t1 t2 : list Call) :
  startup_diags (t1 ++ t2) = startup_diags t1 ++ startup_diags t2.
Proof. apply flat_map_app. Qed.

Lemma startup_diags_CPort (evs : list Event) : startup_diags (map CPort evs) = [].
Proof. induction evs as [|e evs IH]; simpl; [reflexivity | exact IH]. Qed.

Lemma opened_app (t1 t2 : list Event) : opened (t1 ++ t2) = opened t1 ++ opened t2.
Proof. apply flat_map_app. Qed.

Lemma closed_app (t1 t2 : list Event) : closed (t1 ++ t2) = closed t1 ++ closed t2.
Proof. apply flat_map_app. Qed.

Lemma closed_of_no_close (t : list Event) : filter is_close t = [] -> closed t = [].
Proof.
  induction t as [|e t IH]; [reflexivity |].
  destruct e; simpl; try exact IH. discriminate.
Qed.

Lemma opened_of_tx {RB : Type} (getBlock : RB -> Z -> option (Z * Z) * RB)
    (st : State RB) (script : list SendResp) :
  opened (trace (onFlush getBlock st script)) = [].
Proof.
  assert (H : forall script st d n,
             opened (trace (onFlush_send getBlock st script d n)) = []).
  { clear. induction script as [|r script IH]; intros st d n; [reflexivity |].
    simpl. destruct (send r n) as [m e].
    destruct (m =? SOCKET_ERROR);
      [destruct ((e =? EWOULDBLOCK) || (e =? EAGAIN)) | destruct (m <? n)];
      simpl; try apply IH; try reflexivity.
    destruct (getBlock (priv_ st) (u16 QS_TX_CHUNK)) as [[[d' n']|] rb]; simpl;
      [apply IH | reflexivity]. }
  unfold onFlush, onFlush_while.
  destruct (l_sock st =? INVALID_SOCKET); [reflexivity |].
  destruct (getBlock (priv_ st) (u16 QS_TX_CHUNK)) as [[[d n]|] rb]; simpl;
    [apply H | reflexivity].
Qed.

Section StartupProofs.

Context {RB : Type}.
Context (initBuf : RB -> Z -> RB) (rxInitBuf : RxPriv -> Z -> RxPriv).
Context (getBlock : RB -> Z -> option (Z * Z) * RB).

(** The five ways through [QS::onStartup]. *)
Lemma onStartup_cases (host : Host) (arg : option (list ascii))
    (hostName : list ascii) (st : State RB) (script : list SendResp)
    (r : StartupRun RB) :
  onStartup initBuf rxInitBuf getBlock host arg hostName st script = Some r ->
  exists h s status result sock evs,
    endpoint_of arg hostName = Some (h, s) /\
    host_getaddrinfo host h s = (status, result) /\
    onStartup_connect result (l_sock st) = (sock, evs) /\
    ((status <> 0 /\
      r = {| su_trace := [CInitBuf QS_TX_SIZE; CRxInitBuf QS_RX_SIZE;
                          CGetaddrinfo h s status;
                          CStderr (DiagCannotResolve h s status)];
             su_exit := StartupFalse;
             su_final := init_buffers initBuf rxInitBuf st;
             su_unread := script |})
     \/ (status = 0 /\ sock = INVALID_SOCKET /\
         r = {| su_trace := [CInitBuf QS_TX_SIZE; CRxInitBuf QS_RX_SIZE;
                             CGetaddrinfo h s status]
                            ++ map CPort evs
                            ++ [CFreeaddrinfo; CStderr (DiagCannotConnect h s)];
                su_exit := StartupFalse;
                su_final := set_sock (init_buffers initBuf rxInitBuf st) sock;
                su_unread := script |})
     \/ (status = 0 /\ sock <> INVALID_SOCKET /\
         exists flags errno,
           host_fcntl_getfl host sock = (flags, errno) /\
           ((flags = -1 /\
             r = {| su_trace := [CInitBuf QS_TX_SIZE; CRxInitBuf QS_RX_SIZE;
                                 CGetaddrinfo h s status]
                                ++ map CPort evs
                                ++ [CFreeaddrinfo; CFcntlGetfl sock flags;
                                    CStderr (DiagSocketConfig errno);
                                    CPort (EClose sock)];
                    su_exit := StartupFalse;
                    su_final := set_sock (init_buffers initBuf rxInitBuf st)
                                  INVALID_SOCKET;
                    su_unread := script |})
            \/ (flags <> -1 /\
                exists status' errno',
                  host_fcntl_setfl host sock (Z.lor flags O_NONBLOCK)
                  = (status', errno') /\
                  ((status' <> 0 /\
                    r = {| su_trace :=
                             [CInitBuf QS_TX_SIZE; CRxInitBuf QS_RX_SIZE;
                              CGetaddrinfo h s status]
                             ++ map CPort evs
                             ++ [CFreeaddrinfo; CFcntlGetfl sock flags;
                                 CFcntlSetfl sock (Z.lor flags O_NONBLOCK) status';
                                 CStderr (DiagNonBlocking errno');
                                 CPort (EClose sock)];
                           su_exit := StartupFalse;
                           su_final := set_sock (init_buffers initBuf rxInitBuf st)
                                         INVALID_SOCKET;
                           su_unread := script |})
                   \/ (status' = 0 /\
                       r = {| su_trace :=
                                ([CInitBuf QS_TX_SIZE; CRxInitBuf QS_RX_SIZE;
                                  CGetaddrinfo h s status]
                                 ++ map CPort evs
                                 ++ [CFreeaddrinfo; CFcntlGetfl sock flags;
                                     CFcntlSetfl sock (Z.lor flags O_NONBLOCK) status';
                                     CSetsockopt sock SO_REUSEADDR 1;
                                     CSetsockopt sock SO_LINGER 0])
                                ++ map CPort
                                     (trace (onFlush getBlock
                                        (set_sock (init_buffers initBuf rxInitBuf st) sock)
                                        script));
                              su_exit :=
                                match exit (onFlush getBlock
                                        (set_sock (init_buffers initBuf rxInitBuf st) sock)
                                        script) with
                                | StillSending => StartupFlushing
                                | _ => StartupTrue
                                end;
                              su_final :=
                                final (onFlush getBlock
                                        (set_sock (init_buffers initBuf rxInitBuf st) sock)
                                        script);
                              su_unread :=
                                unread (onFlush getBlock
                                        (set_sock (init_buffers initBuf rxInitBuf st) sock)
                                        script) |})))))).
Proof.
  unfold onStartup. intros Hrun.
  destruct (endpoint_of arg hostName) as [[h s]|]; [| discriminate].
  destruct (host_getaddrinfo host h s) as [status result] eqn:Eg.
  change (l_sock (init_buffers initBuf rxInitBuf st)) with (l_sock st) in Hrun.
  destruct (onStartup_connect result (l_sock st)) as [sock evs] eqn:Ec.
  exists h, s, status, result, sock, evs.
  split; [reflexivity |]. split; [exact Eg |]. split; [exact Ec |].
  destruct (status =? 0) eqn:Es; cbn [negb] in Hrun.
  2:{ left. apply Z.eqb_neq in Es. split; [exact Es |].
      injection Hrun as <-. reflexivity. }
  apply Z.eqb_eq in Es. right.
  cbn [l_sock set_sock] in Hrun.
  destruct (sock =? INVALID_SOCKET) eqn:Ei.
  { left. apply Z.eqb_eq in Ei. split; [exact Es |]. split; [exact Ei |].
    injection Hrun as <-. rewrite <- !app_assoc. reflexivity. }
  apply Z.eqb_neq in Ei. right. split; [exact Es |]. split; [exact Ei |].
  destruct (host_fcntl_getfl host sock) as [flags errno] eqn:Egf.
  exists flags, errno. split; [reflexivity |].
  assert (Hcl : onCleanup (set_sock (init_buffers initBuf rxInitBuf st) sock)
                = ([EClose sock],
                   set_sock (init_buffers initBuf rxInitBuf st) INVALID_SOCKET)).
  { unfold onCleanup. cbn [l_sock set_sock].
    apply Z.eqb_neq in Ei. rewrite Ei. reflexivity. }
  destruct (flags =? -1) eqn:Ef.
  { left. apply Z.eqb_eq in Ef. split; [exact Ef |].
    rewrite Hcl in Hrun. injection Hrun as <-.
    rewrite <- !app_assoc. reflexivity. }
  apply Z.eqb_neq in Ef. right. split; [exact Ef |].
  destruct (host_fcntl_setfl host sock (Z.lor flags O_NONBLOCK))
    as [status' errno'] eqn:Esf.
  exists status', errno'. split; [reflexivity |].
  destruct (status' =? 0) eqn:E2; cbn [negb] in Hrun.
  - right. apply Z.eqb_eq in E2. split; [exact E2 |].
    injection Hrun as <-. rewrite <- !app_assoc. reflexivity.
  - left. apply Z.eqb_neq in E2. split; [exact E2 |].
    rewrite Hcl in Hrun. injection Hrun as <-.
    rewrite <- !app_assoc. reflexivity.
Qed.

Lemma onStartup_connect_no_sends (rp : list Candidate) (l : Z) :
  sends (snd (onStartup_connect rp l)) = [].
Proof.
  revert l. induction rp as [|c rp IH]; intros l; simpl; [reflexivity |].
  destruct (cand_socket c =? INVALID_SOCKET); simpl.
  - specialize (IH (cand_socket c)).
    destruct (onStartup_connect rp (cand_socket c)) as [s evs]. exact IH.
  - destruct (cand_connect c =? SOCKET_ERROR); reflexivity.
Qed.

Lemma onStartup_failure_facts (host : Host) (arg : option (list ascii))
    (hostName : list ascii) (st : State RB) (script : list SendResp)
    (r : StartupRun RB) :
  l_sock st = INVALID_SOCKET ->
  onStartup initBuf rxInitBuf getBlock host arg hostName st script = Some r ->
  su_exit r = StartupFalse ->
  l_sock (su_final r) = INVALID_SOCKET /\
  opened (port_calls (su_trace r)) = closed (port_calls (su_trace r)) /\
  length (startup_diags (su_trace r)) = 1%nat /\
  sends (port_calls (su_trace r)) = [] /\
  su_unread r = script /\
  priv_ (su_final r) = initBuf (priv_ st) QS_TX_SIZE /\
  rxPriv_ (su_final r) = rxInitBuf (rxPriv_ st) QS_RX_SIZE.
Proof.
  intros Hl Hrun Hex.
  destruct (onStartup_cases _ _ _ _ _ _ Hrun)
    as (h & s & status & result & sock & evs & _ & _ & Ec & Hcases).
  pose proof (onStartup_connect_balance result (l_sock st) (or_intror Hl)) as Hbal.
  pose proof (onStartup_connect_no_sends result (l_sock st)) as Hns.
  rewrite Ec in Hbal, Hns. cbn [fst snd] in Hbal, Hns.
  destruct Hcases as [(_ & ->) | [(_ & Hi & ->) | (_ & Hi & flags & errno & _ & Hcases)]].
  - cbn [su_final su_trace su_unread init_buffers l_sock priv_ rxPriv_].
    repeat split; try reflexivity. exact Hl.
  - cbn [su_final su_trace su_unread init_buffers set_sock l_sock priv_ rxPriv_].
    rewrite !port_calls_app, port_calls_CPort, !startup_diags_app, startup_diags_CPort.
    cbn [port_calls startup_diags flat_map app]. rewrite app_nil_r.
    rewrite Hi in Hbal. cbn in Hbal. rewrite app_nil_r in Hbal.
    repeat split; try reflexivity; assumption.
  - apply Z.eqb_neq in Hi. rewrite Hi in Hbal.
    assert (Hop : opened (evs ++ [EClose sock]) = closed (evs ++ [EClose sock])).
    { rewrite opened_app, closed_app, Hbal. cbn. rewrite app_nil_r. reflexivity. }
    assert (Hse : sends (evs ++ [EClose sock]) = []).
    { unfold sends in *. rewrite filter_app, Hns. reflexivity. }
    destruct Hcases as [(_ & ->) | (_ & status' & errno' & _ & [(_ & ->) | (_ & ->)])].
    + cbn [su_final su_trace su_unread init_buffers set_sock l_sock priv_ rxPriv_].
      rewrite !port_calls_app, port_calls_CPort, !startup_diags_app, startup_diags_CPort.
      cbn [port_calls startup_diags flat_map app].
      repeat split; try reflexivity; assumption.
    + cbn [su_final su_trace su_unread init_buffers set_sock l_sock priv_ rxPriv_].
      rewrite !port_calls_app, port_calls_CPort, !startup_diags_app, startup_diags_CPort.
      cbn [port_calls startup_diags flat_map app].
      repeat split; try reflexivity; assumption.
    + cbn [su_exit] in Hex.
      destruct (exit (onFlush getBlock
                  (set_sock (init_buffers initBuf rxInitBuf st) sock) script));
        discriminate.
Qed.

Lemma onStartup_success_facts (host : Host) (arg : option (list ascii))
    (hostName : list ascii) (st : State RB) (script : list SendResp)
    (r : StartupRun RB) :
  l_sock st = INVALID_SOCKET ->
  onStartup initBuf rxInitBuf getBlock host arg hostName st script = Some r ->
  su_exit r <> StartupFalse ->
  l_sock (su_final r) <> INVALID_SOCKET /\
  opened (port_calls (su_trace r)) = [l_sock (su_final r)] /\
  closed (port_calls (su_trace r)) = [] /\
  startup_diags (su_trace r) = [] /\
  (exists flags,
     In (CFcntlGetfl (l_sock (su_final r)) flags) (su_trace r) /\
     flags <> -1 /\
     setfl_flags (su_trace r) = [Z.lor flags O_NONBLOCK]) /\
  (exists pre,
     su_trace r
     = pre ++ map CPort
         (trace (onFlush getBlock
                   (set_sock (init_buffers initBuf rxInitBuf st) (l_sock (su_final r)))
                   script)) /\
     sends (port_calls pre) = []) /\
  su_final r
  = final (onFlush getBlock
             (set_sock (init_buffers initBuf rxInitBuf st) (l_sock (su_final r)))
             script).
Proof.
  intros Hl Hrun Hex.
  destruct (onStartup_cases _ _ _ _ _ _ Hrun)
    as (h & s & status & result & sock & evs & _ & _ & Ec & Hcases).
  pose proof (onStartup_connect_balance result (l_sock st) (or_intror Hl)) as Hbal.
  pose proof (onStartup_connect_no_sends result (l_sock st)) as Hns.
  pose proof (onStartup_connect_opens_one result (l_sock st)) as Hone.
  rewrite Ec in Hbal, Hns, Hone. cbn [fst snd] in Hbal, Hns, Hone.
  destruct Hcases as [(_ & ->) | [(_ & _ & ->) | (_ & Hi & flags & errno & _ & Hcases)]];
    [exfalso; apply Hex; reflexivity | exfalso; apply Hex; reflexivity |].
  destruct Hcases as [(_ & ->) | (Hf & status' & errno' & _ & [(_ & ->) | (_ & ->)])];
    [exfalso; apply Hex; reflexivity | exfalso; apply Hex; reflexivity |].
  set (stc := set_sock (init_buffers initBuf rxInitBuf st) sock).
  destruct (onFlush_frame getBlock stc script) as (Hs & _ & Hc & _).
  cbn [su_final su_trace]. rewrite Hs. cbn [stc set_sock l_sock]. fold stc.
  assert (Hcl : closed evs = []).
  { apply Z.eqb_neq in Hi. rewrite Hi in Hbal. rewrite Hbal in Hone.
    rewrite length_app in Hone. simpl in Hone.
    destruct (closed evs); [reflexivity | simpl in Hone; lia]. }
  assert (Hop : opened evs = [sock]).
  { apply Z.eqb_neq in Hi. rewrite Hi, Hcl in Hbal. exact Hbal. }
  split; [exact Hi |].
  rewrite !port_calls_app, !port_calls_CPort, !startup_diags_app, !startup_diags_CPort.
  cbn [port_calls startup_diags flat_map app].
  rewrite !opened_app, !closed_app, Hop, Hcl, (opened_of_tx getBlock stc script).
  rewrite (closed_of_no_close _ Hc).
  split; [reflexivity |]. split; [reflexivity |]. split; [reflexivity |].
  split; [| split; [| reflexivity]].
  - exists flags. split; [| split; [exact Hf |]].
    + do 3 right. apply in_or_app. left. apply in_or_app. right.
      right. left. reflexivity.
    + assert (Hm : forall t, setfl_flags (map CPort t) = []).
      { intros t. induction t as [|e t IHt]; [reflexivity | exact IHt]. }
      change (setfl_flags
                ([CInitBuf QS_TX_SIZE; CRxInitBuf QS_RX_SIZE; CGetaddrinfo h s status]
                 ++ (map CPort evs ++
                     [CFreeaddrinfo; CFcntlGetfl sock flags;
                      CFcntlSetfl sock (Z.lor flags O_NONBLOCK) status';
                      CSetsockopt sock SO_REUSEADDR 1; CSetsockopt sock SO_LINGER 0])
                 ++ map CPort (trace (onFlush getBlock stc script)))
              = [Z.lor flags O_NONBLOCK]).
      unfold setfl_flags in *. rewrite !flat_map_app, !Hm. reflexivity.
  - exists ([CInitBuf QS_TX_SIZE; CRxInitBuf QS_RX_SIZE; CGetaddrinfo h s status]
            ++ map CPort evs ++
            [CFreeaddrinfo; CFcntlGetfl sock flags;
             CFcntlSetfl sock (Z.lor flags O_NONBLOCK) status';
             CSetsockopt sock SO_REUSEADDR 1; CSetsockopt sock SO_LINGER 0]).
    split; [reflexivity |].
    rewrite !port_calls_app, port_calls_CPort. cbn [port_calls flat_map app].
    rewrite app_nil_r. exact Hns.
Qed.

(** X18: when [QS::onStartup] fails, having been entered with [l_sock]
    invalid, it leaves [l_sock] invalid and no descriptor open (every
    socket it opened it has closed), has printed exactly one diagnostic,
    has sent nothing and used no answer of the socket; the two buffers
    have been initialised all the same. *)
Theorem onStartup_failure_leaves_nothing_open (host : Host)
    (arg : option (list ascii)) (hostName : list ascii) (st : State RB)
    (script : list SendResp) (r : StartupRun RB) :
  l_sock st = INVALID_SOCKET ->
  onStartup initBuf rxInitBuf getBlock host arg hostName st script = Some r ->
  su_exit r = StartupFalse ->
  l_sock (su_final r) = INVALID_SOCKET /\
  opened (port_calls (su_trace r)) = closed (port_calls (su_trace r)) /\
  length (startup_diags (su_trace r)) = 1%nat /\
  sends (port_calls (su_trace r)) = [] /\
  su_unread r = script /\
  priv_ (su_final r) = initBuf (priv_ st) QS_TX_SIZE /\
  rxPriv_ (su_final r) = rxInitBuf (rxPriv_ st) QS_RX_SIZE.
Proof. apply onStartup_failure_facts. Qed.

(** X19: when [QS::onStartup] does not fail, having been entered with
    [l_sock] invalid, [l_sock] holds the one socket it opened and nothing
    was closed, no startup diagnostic was printed, the flags written with
    [F_SETFL] are the flags read with [F_GETFL] with [O_NONBLOCK] added
    (so the socket is non-blocking and keeps its other flags), and
    startup ends with a flush of the freshly initialised buffers on that
    socket, before which nothing was sent. *)
Theorem onStartup_success_connects_and_flushes (host : Host)
    (arg : option (list ascii)) (hostName : list ascii) (st : State RB)
    (script : list SendResp) (r : StartupRun RB) :
  l_sock st = INVALID_SOCKET ->
  onStartup initBuf rxInitBuf getBlock host arg hostName st script = Some r ->
  su_exit r <> StartupFalse ->
  l_sock (su_final r) <> INVALID_SOCKET /\
  opened (port_calls (su_trace r)) = [l_sock (su_final r)] /\
  closed (port_calls (su_trace r)) = [] /\
  startup_diags (su_trace r) = [] /\
  (exists flags,
     In (CFcntlGetfl (l_sock (su_final r)) flags) (su_trace r) /\
     flags <> -1 /\
     setfl_flags (su_trace r) = [Z.lor flags O_NONBLOCK] /\
     Z.testbit (Z.lor flags O_NONBLOCK) 11 = true /\
     forall i, Z.testbit flags i = true ->
               Z.testbit (Z.lor flags O_NONBLOCK) i = true) /\
  (exists pre,
     su_trace r
     = pre ++ map CPort
         (trace (onFlush getBlock
                   (set_sock (init_buffers initBuf rxInitBuf st) (l_sock (su_final r)))
                   script)) /\
     sends (port_calls pre) = []) /\
  su_final r
  = final (onFlush getBlock
             (set_sock (init_buffers initBuf rxInitBuf st) (l_sock (su_final r)))
             script).
Proof.
  intros Hl Hrun Hex.
  destruct (onStartup_success_facts _ _ _ _ _ _ Hl Hrun Hex)
    as (H1 & H2 & H3 & H4 & (flags & Hg & Hf & Hsf) & H6 & H7).
  repeat split; try assumption.
  exists flags. repeat split; try assumption.
  - rewrite Z.lor_spec. change (Z.testbit O_NONBLOCK 11) with true.
    apply orb_true_r.
  - intros i Hi. rewrite Z.lor_spec, Hi. reflexivity.
Qed.

(** X20: after a failed [QS::onStartup] (entered with [l_sock] invalid)
    the transmit path does no socket I/O: [QS::onFlush] and [QS_output]
    only print the invalid-socket diagnostic and return, using no answer
    of the socket and leaving the state as startup left it. *)
Theorem failed_startup_then_no_transmission (host : Host)
    (arg : option (list ascii)) (hostName : list ascii) (st : State RB)
    (script script' : list SendResp) (r : StartupRun RB) :
  l_sock st = INVALID_SOCKET ->
  onStartup initBuf rxInitBuf getBlock host arg hostName st script = Some r ->
  su_exit r = StartupFalse ->
  onFlush getBlock (su_final r) script'
  = {| trace := [EStderr DiagInvalidSocket]; exit := NoSocket;
       final := su_final r; unread := script' |} /\
  QS_output getBlock (su_final r) script'
  = {| trace := [EStderr DiagInvalidSocket]; exit := NoSocket;
       final := su_final r; unread := script' |}.
Proof.
  intros Hl Hrun Hex.
  destruct (onStartup_failure_facts _ _ _ _ _ _ Hl Hrun Hex) as (Hs & _).
  unfold onFlush, QS_output. rewrite Hs. split; reflexivity.
Qed.

(** X21: a [QS::onStartup] that returned true (entered with [l_sock]
    invalid), followed by [QS::onCleanup], leaves no descriptor open:
    over both calls the sockets opened are exactly the sockets closed,
    whatever happened in the flush at the end of startup, and [l_sock]
    is invalid again. *)
Theorem startup_then_cleanup_leaves_nothing_open (host : Host)
    (arg : option (list ascii)) (hostName : list ascii) (st : State RB)
    (script : list SendResp) (r : StartupRun RB) :
  l_sock st = INVALID_SOCKET ->
  onStartup initBuf rxInitBuf getBlock host arg hostName st script = Some r ->
  su_exit r = StartupTrue ->
  opened (port_calls (su_trace r) ++ fst (onCleanup (su_final r)))
  = closed (port_calls (su_trace r) ++ fst (onCleanup (su_final r))) /\
  closed (port_calls (su_trace r) ++ fst (onCleanup (su_final r)))
  = [l_sock (su_final r)] /\
  l_sock (snd (onCleanup (su_final r))) = INVALID_SOCKET.
Proof.
  intros Hl Hrun Hex.
  assert (Hne : su_exit r <> StartupFalse) by (rewrite Hex; discriminate).
  destruct (onStartup_success_facts _ _ _ _ _ _ Hl Hrun Hne)
    as (H1 & H2 & H3 & _).
  rewrite opened_app, closed_app, H2, H3.
  unfold onCleanup. apply Z.eqb_neq in H1. rewrite H1. simpl.
  repeat split; reflexivity.
Qed.

End StartupProofs.

Lemma onStartup_failure_leaves_nothing_open_witness :
  exists r,
    onStartup ring_initBuf window_rxInitBuf ring_getBlock demo_host_blocking
      (Some (cstr "qspy.local:7701")) (repeat "?"%char 128) demo_unconnected
      [Accepts 100] = Some r /\
    su_exit r = StartupFalse /\
    l_sock (su_final r) = INVALID_SOCKET /\
    opened (port_calls (su_trace r)) = [7] /\
    closed (port_calls (su_trace r)) = [7] /\
    startup_diags (su_trace r) = [DiagNonBlocking 22].
Proof.
  eexists. split; [reflexivity |]. split; [reflexivity |].
  destruct (onStartup_failure_leaves_nothing_open ring_initBuf window_rxInitBuf
              ring_getBlock demo_host_blocking (Some (cstr "qspy.local:7701"))
              (repeat "?"%char 128) demo_unconnected [Accepts 100] _
              eq_refl eq_refl eq_refl) as (H1 & _).
  split; [exact H1 |]. repeat split.
Defined.

Lemma onStartup_success_connects_and_flushes_witness :
  exists r,
    onStartup ring_initBuf window_rxInitBuf ring_getBlock demo_host
      (Some (cstr "qspy.local:7701")) (repeat "?"%char 128) demo_unconnected
      [Accepts 100] = Some r /\
    su_exit r = StartupTrue /\
    l_sock (su_final r) = 7 /\
    opened (port_calls (su_trace r)) = [7] /\
    setfl_flags (su_trace r) = [2050].
Proof.
  eexists. split; [reflexivity |]. split; [reflexivity |].
  assert (Hne : StartupTrue <> StartupFalse) by discriminate.
  destruct (onStartup_success_connects_and_flushes ring_initBuf window_rxInitBuf
              ring_getBlock demo_host (Some (cstr "qspy.local:7701"))
              (repeat "?"%char 128) demo_unconnected [Accepts 100] _
              eq_refl eq_refl Hne) as (_ & H2 & _).
  split; [reflexivity |]. split; [exact H2 | reflexivity].
Defined.

Lemma failed_startup_then_no_transmission_witness :
  exists r,
    onStartup ring_initBuf window_rxInitBuf ring_getBlock demo_host_unresolved
      (Some (cstr "nohost.invalid:9999")) (repeat "?"%char 128) demo_unconnected
      [] = Some r /\
    su_exit r = StartupFalse /\
    startup_diags (su_trace r)
    = [DiagCannotResolve "nohost.invalid" "9999" (-2)] /\
    trace (onFlush ring_getBlock (su_final r) [Accepts 100])
    = [EStderr DiagInvalidSocket].
Proof.
  eexists. split; [reflexivity |]. split; [reflexivity |]. split; [reflexivity |].
  destruct (failed_startup_then_no_transmission ring_initBuf window_rxInitBuf
              ring_getBlock demo_host_unresolved (Some (cstr "nohost.invalid:9999"))
              (repeat "?"%char 128) demo_unconnected [] [Accepts 100] _
              eq_refl eq_refl eq_refl) as (H & _).
  rewrite H. reflexivity.
Defined.

Lemma startup_then_cleanup_leaves_nothing_open_witness :
  exists r,
    onStartup ring_initBuf window_rxInitBuf ring_getBlock demo_host
      None (repeat "?"%char 128) demo_unconnected [Accepts 100] = Some r /\
    closed (port_calls (su_trace r) ++ fst (onCleanup (su_final r))) = [7] /\
    opened (port_calls (su_trace r) ++ fst (onCleanup (su_final r))) = [7].
Proof.
  eexists. split; [reflexivity |].
  destruct (startup_then_cleanup_leaves_nothing_open ring_initBuf window_rxInitBuf
              ring_getBlock demo_host None (repeat "?"%char 128) demo_unconnected
              [Accepts 100] _ eq_refl eq_refl eq_refl) as (H1 & H2 & _).
  split; [exact H2 |]. rewrite H1. exact H2.
Defined.
